(** * Bluesky Alt-Text Slinger: the review / select / apply workflow

    A shallow embedding of the client logic of [frontend/src/App.tsx] and of
    the wire types of [frontend/src/api.ts], followed by the properties the
    specification states about it and by further properties of the code.

    Conventions of the embedding.
    - A JavaScript string is the sequence of its UTF-16 code units.
    - An optional field ([alt?: string | null]) is an [option]; [null] and
      [undefined] are both [None], the code never tells them apart.
    - The component state (the nine [useState] cells) is one record; a React
      setter is a function on that record.
    - An [async] handler is split at its [await]: the synchronous prefix
      returns the request it issues (or [None] when it returns before the
      network call), and the two continuations (resolved, rejected) run on
      whatever state is current when the reply arrives, with the values the
      handler captured when it was triggered passed explicitly. *)

From stdpp Require Import gmap strings list fin_maps pretty.

(** ** JavaScript strings *)

Abbreviation jsstring := (list N).

(** A string literal of the source, as code units. *)
Definition lit (s : string) : jsstring :=
  Ascii.N_of_ascii <$> String.list_ascii_of_string s.

(** Truthiness of a string value: every string but the empty one. *)
Definition truthy (s : jsstring) : bool :=
  match s with [] => false | _ :: _ => true end.

(** ECMAScript WhiteSpace and LineTerminator code points, the characters
    [String.prototype.trim] strips (all of them lie in the BMP). *)
Definition isWhiteSpace (c : N) : bool :=
  ((c =? 0x09) || (c =? 0x0A) || (c =? 0x0B) || (c =? 0x0C) || (c =? 0x0D)
   || (c =? 0x20) || (c =? 0xA0) || (c =? 0x1680)
   || ((0x2000 <=? c) && (c <=? 0x200A))
   || (c =? 0x2028) || (c =? 0x2029) || (c =? 0x202F) || (c =? 0x205F)
   || (c =? 0x3000) || (c =? 0xFEFF))%N.

Fixpoint trimStart (s : jsstring) : jsstring :=
  match s with
  | [] => []
  | c :: s' => if isWhiteSpace c then trimStart s' else s
  end.

Definition trimEnd (s : jsstring) : jsstring :=
  reverse (trimStart (reverse s)).

Definition trim (s : jsstring) : jsstring := trimEnd (trimStart s).

(** [x || ''] on an optional string: [x] when truthy, else the empty
    string. *)
Definition orEmpty (x : option jsstring) : jsstring :=
  match x with
  | Some s => if truthy s then s else []
  | None => []
  end.

(** ** Wire types ([api.ts]) *)

Module Api.

Record ScanRequest := {
  req_handle : jsstring;
  app_password : jsstring;
  generate_alt : option bool
}.

Record ImageInfo := {
  index : Z;
  thumb_url : jsstring;
  fullsize_url : jsstring;
  alt : option jsstring;
  generated_alt : option jsstring
}.

Record PostInfo := {
  uri : jsstring;
  cid : jsstring;
  text : jsstring;
  created_at : option jsstring;
  images : list ImageInfo
}.

Record ScanResponse := {
  handle : jsstring;
  total_posts : Z;
  total_images : Z;
  posts : list PostInfo;
  alt_generation_enabled : bool
}.

Record AltUpdate := {
  upd_uri : jsstring;
  image_index : Z;
  new_alt : jsstring
}.

Record ApplyResultItem := {
  item_uri : jsstring;
  success : bool;
  item_error : option jsstring
}.

Record ApplyResponse := { updated : list ApplyResultItem }.

Record ApplyRequest := {
  apply_handle : jsstring;
  apply_app_password : jsstring;
  updates : list AltUpdate
}.

(** What a handler can observe of a rejected call.  [scanImages] and
    [applyAltUpdates] throw [new Error(text || `HTTP error ...`)]; the
    handler feeds [err.message] to [JSON.parse] and reads [parsed?.detail].
    The thrown value is modelled at that boundary: either the message is
    not JSON, or it is and carries (or lacks) a [detail]. *)
Inductive JsonDetail :=
| DetailMissing
| DetailString (s : jsstring)
| DetailStructured (stringified : jsstring).

Inductive Failure :=
| RawText (message : jsstring)
| JsonText (detail : JsonDetail).

(** Reply of the network call a handler awaits. *)
Inductive Reply (A : Type) :=
| Resolved (a : A)
| Rejected (err : Failure).
Arguments Resolved {A} a.
Arguments Rejected {A} err.

End Api.

#[global] Instance AltUpdate_eq_dec : EqDecision Api.AltUpdate.
Proof. solve_decision. Defined.

(** ** Selection state ([App.tsx]) *)

Record AltState := {
  apply : bool;
  draftAlt : jsstring
}.

#[global] Instance AltState_eq_dec : EqDecision AltState.
Proof. solve_decision. Defined.

(** [`${uri}::${index}`]; [index] is an integer, printed in decimal
    (JavaScript prints integers of magnitude below 10^21 that way). *)
Definition makeKey (uri : jsstring) (index : Z) : jsstring :=
  uri ++ lit "::" ++ lit (pretty index).

Inductive FilterMode := all | missingAlt | hasAlt | selected.

(** [img.alt && img.alt.trim().length > 0], as a truth value. *)
Definition imgHasAlt (img : Api.ImageInfo) : bool :=
  match Api.alt img with
  | Some a => truthy a && negb (Nat.eqb (length (trim a)) 0)
  | None => false
  end.

(** [!img.alt || img.alt.trim().length === 0] *)
Definition imgAltMissing (img : Api.ImageInfo) : bool :=
  match Api.alt img with
  | Some a => negb (truthy a) || Nat.eqb (length (trim a)) 0
  | None => true
  end.

(** [img.alt && img.alt.trim().length > 0 ? img.alt : img.generated_alt || ''] *)
Definition baseAlt (img : Api.ImageInfo) : jsstring :=
  match Api.alt img with
  | Some a =>
      if truthy a && negb (Nat.eqb (length (trim a)) 0) then a
      else orEmpty (Api.generated_alt img)
  | None => orEmpty (Api.generated_alt img)
  end.

(** ** Component state

    [altState] is a plain object used as a map from composite keys to
    entries.  Every key the handlers read or write comes from [makeKey] and
    so contains [::]; no property inherited from [Object.prototype] has such
    a name, and a finite map renders the lookups exactly. *)

Record AppState := {
  handle : jsstring;
  appPassword : jsstring;
  loading : bool;
  applying : bool;
  error : option jsstring;
  applyMessage : option jsstring;
  result : option Api.ScanResponse;
  altState : gmap jsstring AltState;
  filterMode : FilterMode
}.

Definition initialState : AppState :=
  {| handle := []; appPassword := []; loading := false; applying := false;
     error := None; applyMessage := None; result := None; altState := ∅;
     filterMode := all |}.

Definition setHandle (v : jsstring) (s : AppState) : AppState :=
  {| handle := v; appPassword := appPassword s; loading := loading s;
     applying := applying s; error := error s; applyMessage := applyMessage s;
     result := result s; altState := altState s; filterMode := filterMode s |}.

Definition setAppPassword (v : jsstring) (s : AppState) : AppState :=
  {| handle := handle s; appPassword := v; loading := loading s;
     applying := applying s; error := error s; applyMessage := applyMessage s;
     result := result s; altState := altState s; filterMode := filterMode s |}.

Definition setLoading (v : bool) (s : AppState) : AppState :=
  {| handle := handle s; appPassword := appPassword s; loading := v;
     applying := applying s; error := error s; applyMessage := applyMessage s;
     result := result s; altState := altState s; filterMode := filterMode s |}.

Definition setApplying (v : bool) (s : AppState) : AppState :=
  {| handle := handle s; appPassword := appPassword s; loading := loading s;
     applying := v; error := error s; applyMessage := applyMessage s;
     result := result s; altState := altState s; filterMode := filterMode s |}.

Definition setError (v : option jsstring) (s : AppState) : AppState :=
  {| handle := handle s; appPassword := appPassword s; loading := loading s;
     applying := applying s; error := v; applyMessage := applyMessage s;
     result := result s; altState := altState s; filterMode := filterMode s |}.

Definition setApplyMessage (v : option jsstring) (s : AppState) : AppState :=
  {| handle := handle s; appPassword := appPassword s; loading := loading s;
     applying := applying s; error := error s; applyMessage := v;
     result := result s; altState := altState s; filterMode := filterMode s |}.

Definition setResult (v : option Api.ScanResponse) (s : AppState) : AppState :=
  {| handle := handle s; appPassword := appPassword s; loading := loading s;
     applying := applying s; error := error s; applyMessage := applyMessage s;
     result := v; altState := altState s; filterMode := filterMode s |}.

(** [setAltState] is called both with a value and with an updater function
    of the latest state; the updater form covers both. *)
Definition setAltState (f : gmap jsstring AltState → gmap jsstring AltState)
    (s : AppState) : AppState :=
  {| handle := handle s; appPassword := appPassword s; loading := loading s;
     applying := applying s; error := error s; applyMessage := applyMessage s;
     result := result s; altState := f (altState s); filterMode := filterMode s |}.

Definition setFilterMode (v : FilterMode) (s : AppState) : AppState :=
  {| handle := handle s; appPassword := appPassword s; loading := loading s;
     applying := applying s; error := error s; applyMessage := applyMessage s;
     result := result s; altState := altState s; filterMode := v |}.

(** ** Handlers *)

(** Body of the inner [forEach] of [initAltStateFromResult]. *)
Definition initEntry (post : Api.PostInfo) (next : gmap jsstring AltState)
    (img : Api.ImageInfo) : gmap jsstring AltState :=
  let key := makeKey (Api.uri post) (Api.index img) in
  <[key := {| apply := imgAltMissing img; draftAlt := baseAlt img |}]> next.

(** The map [initAltStateFromResult] builds, starting from [{}]. *)
Definition initAltState (data : Api.ScanResponse) : gmap jsstring AltState :=
  foldl (λ next post, foldl (initEntry post) next (Api.images post))
        ∅ (Api.posts data).

Definition initAltStateFromResult (data : Api.ScanResponse)
    (s : AppState) : AppState :=
  setAltState (λ _, initAltState data) s.

(** The message a [catch] block computes, [generic] being its initial
    value of [msg]. *)
Definition errorText (generic : jsstring) (err : Api.Failure) : jsstring :=
  match err with
  | Api.JsonText Api.DetailMissing => generic
  | Api.JsonText (Api.DetailString d) => if truthy d then d else generic
  | Api.JsonText (Api.DetailStructured d) => d
  | Api.RawText message => if truthy message then message else generic
  end.

(** [onSubmit], up to the [await]. *)
Definition onSubmit_begin (s : AppState)
    : AppState * option Api.ScanRequest :=
  let s1 := setError None s in
  let s2 := setApplyMessage None s1 in
  let s3 := setResult None s2 in
  let s4 := setAltState (λ _, ∅) s3 in
  if negb (truthy (handle s)) || negb (truthy (appPassword s)) then
    (setError (Some (lit "Please enter both handle and app password.")) s4,
     None)
  else
    (setLoading true s4,
     Some {| Api.req_handle := handle s;
             Api.app_password := appPassword s;
             Api.generate_alt := Some true |}).

(** [onSubmit], the [try] body after the [await], then [finally]. *)
Definition onSubmit_resolved (data : Api.ScanResponse)
    (s : AppState) : AppState :=
  setLoading false (initAltStateFromResult data (setResult (Some data) s)).

(** [onSubmit], the [catch] block, then [finally]. *)
Definition onSubmit_rejected (err : Api.Failure) (s : AppState) : AppState :=
  setLoading false
    (setError (Some (errorText (lit "An error occurred while scanning.") err))
       s).

(** [onSubmit] run to completion with no other event in between. *)
Definition onSubmit (s : AppState) (reply : Api.Reply Api.ScanResponse)
    : AppState :=
  match onSubmit_begin s with
  | (s', None) => s'
  | (s', Some _) =>
      match reply with
      | Api.Resolved data => onSubmit_resolved data s'
      | Api.Rejected err => onSubmit_rejected err s'
      end
  end.

Definition handleAltChange (uri : jsstring) (index : Z) (value : jsstring)
    (s : AppState) : AppState :=
  let key := makeKey uri index in
  setAltState (λ prev,
    <[key := {| apply := match prev !! key with
                         | Some st => apply st
                         | None => false
                         end;
                draftAlt := value |}]> prev) s.

Definition handleApplyToggle (uri : jsstring) (index : Z) (apply' : bool)
    (s : AppState) : AppState :=
  let key := makeKey uri index in
  setAltState (λ prev,
    <[key := {| apply := apply';
                draftAlt := match prev !! key with
                            | Some st => draftAlt st
                            | None => []
                            end |}]> prev) s.

(** Body of the inner [forEach] of [onApplyChanges]; [updates.push(u)]
    appends at the end. *)
Definition pushUpdate (altState0 : gmap jsstring AltState)
    (post : Api.PostInfo) (updates : list Api.AltUpdate)
    (img : Api.ImageInfo) : list Api.AltUpdate :=
  let key := makeKey (Api.uri post) (Api.index img) in
  match altState0 !! key with
  | None => updates
  | Some state =>
      if negb (apply state) then updates
      else
        let draft := trim (draftAlt state) in
        if negb (truthy draft) then updates
        else updates ++ [ {| Api.upd_uri := Api.uri post;
                             Api.image_index := Api.index img;
                             Api.new_alt := draft |} ]
  end.

Definition buildUpdates (result0 : Api.ScanResponse)
    (altState0 : gmap jsstring AltState) : list Api.AltUpdate :=
  foldl (λ updates post, foldl (pushUpdate altState0 post) updates
                               (Api.images post))
        [] (Api.posts result0).

(** The summary message of a resolved apply call. *)
Definition applySummary (resp : Api.ApplyResponse) : jsstring :=
  let successes := length (filter (λ r, Api.success r = true) (Api.updated resp)) in
  let failures := length (Api.updated resp) - successes in
  lit "Applied alt text to " ++ lit (pretty successes) ++ lit " post(s)." ++
  (if 0 <? failures
   then lit " " ++ lit (pretty failures) ++ lit " post(s) failed; check logs/errors."
   else []).

(** The [images.map] callback of the optimistic update. *)
Definition mergeImage (altState0 : gmap jsstring AltState)
    (post : Api.PostInfo) (img : Api.ImageInfo) : Api.ImageInfo :=
  let key := makeKey (Api.uri post) (Api.index img) in
  match altState0 !! key with
  | Some state =>
      if apply state && truthy (trim (draftAlt state)) then
        {| Api.index := Api.index img;
           Api.thumb_url := Api.thumb_url img;
           Api.fullsize_url := Api.fullsize_url img;
           Api.alt := Some (trim (draftAlt state));
           Api.generated_alt := Api.generated_alt img |}
      else img
  | None => img
  end.

Definition mergePost (altState0 : gmap jsstring AltState)
    (post : Api.PostInfo) : Api.PostInfo :=
  {| Api.uri := Api.uri post;
     Api.cid := Api.cid post;
     Api.text := Api.text post;
     Api.created_at := Api.created_at post;
     Api.images := mergeImage altState0 post <$> Api.images post |}.

(** [nextResult] *)
Definition nextResult (result0 : Api.ScanResponse)
    (altState0 : gmap jsstring AltState) : Api.ScanResponse :=
  {| Api.handle := Api.handle result0;
     Api.total_posts := Api.total_posts result0;
     Api.total_images := Api.total_images result0;
     Api.posts := mergePost altState0 <$> Api.posts result0;
     Api.alt_generation_enabled := Api.alt_generation_enabled result0 |}.

(** [onApplyChanges], up to the [await]. *)
Definition onApplyChanges_begin (s : AppState)
    : AppState * option Api.ApplyRequest :=
  match result s with
  | None => (s, None)
  | Some result0 =>
      let s1 := setApplyMessage None s in
      let s2 := setError None s1 in
      let updates := buildUpdates result0 (altState s) in
      if Nat.eqb (length updates) 0 then
        (setApplyMessage (Some (lit "No images selected for update.")) s2,
         None)
      else
        (setApplying true s2,
         Some {| Api.apply_handle := handle s;
                 Api.apply_app_password := appPassword s;
                 Api.updates := updates |})
  end.

(** [onApplyChanges], the [try] body after the [await], then [finally].
    [result0] and [altState0] are the values of [result] and [altState] the
    handler closed over when it was triggered; [s] is the state current
    when the reply arrives. *)
Definition onApplyChanges_resolved (result0 : Api.ScanResponse)
    (altState0 : gmap jsstring AltState) (resp : Api.ApplyResponse)
    (s : AppState) : AppState :=
  setApplying false
    (setResult (Some (nextResult result0 altState0))
       (setApplyMessage (Some (applySummary resp)) s)).

(** [onApplyChanges], the [catch] block, then [finally]. *)
Definition onApplyChanges_rejected (err : Api.Failure)
    (s : AppState) : AppState :=
  setApplying false
    (setError
       (Some (errorText (lit "An error occurred while applying changes.") err))
       s).

(** [onApplyChanges] run to completion with no other event in between. *)
Definition onApplyChanges (s : AppState) (reply : Api.Reply Api.ApplyResponse)
    : AppState :=
  match onApplyChanges_begin s with
  | (s', None) => s'
  | (s', Some _) =>
      match reply, result s with
      | Api.Resolved resp, Some result0 =>
          onApplyChanges_resolved result0 (altState s) resp s'
      | Api.Resolved _, None => s'
      | Api.Rejected err, _ => onApplyChanges_rejected err s'
      end
  end.

(** Body of the inner [forEach] of [bulkSelectMissingAlt]. *)
Definition selectEntry (post : Api.PostInfo) (next : gmap jsstring AltState)
    (img : Api.ImageInfo) : gmap jsstring AltState :=
  let key := makeKey (Api.uri post) (Api.index img) in
  if negb (imgHasAlt img) then
    let existing := match next !! key with
                    | Some st => st
                    | None => {| apply := false; draftAlt := baseAlt img |}
                    end in
    <[key := {| apply := true; draftAlt := draftAlt existing |}]> next
  else next.

(** The updater [bulkSelectMissingAlt] passes to [setAltState]. *)
Definition selectMissing (result0 : Api.ScanResponse)
    (prev : gmap jsstring AltState) : gmap jsstring AltState :=
  foldl (λ next post, foldl (selectEntry post) next (Api.images post))
        prev (Api.posts result0).

Definition bulkSelectMissingAlt (s : AppState) : AppState :=
  match result s with
  | None => s
  | Some result0 => setAltState (selectMissing result0) s
  end.

(** The updater of [bulkClearSelections]: a loop over [Object.entries(prev)]
    that fills a fresh object. *)
Definition clearAll (prev : gmap jsstring AltState) : gmap jsstring AltState :=
  map_fold (λ key value next,
              <[key := {| apply := false; draftAlt := draftAlt value |}]> next)
           ∅ prev.

Definition bulkClearSelections (s : AppState) : AppState :=
  setAltState clearAll s.

(** [shouldShowImage], as a truth value ([return hasAlt] may return a falsy
    string or [null]; [filter] only looks at truthiness). *)
Definition shouldShowImage (s : AppState) (post : Api.PostInfo)
    (img : Api.ImageInfo) : bool :=
  let key := makeKey (Api.uri post) (Api.index img) in
  let state := altState s !! key in
  let has := imgHasAlt img in
  let isSelected := match state with Some st => apply st | None => false end in
  match filterMode s with
  | missingAlt => negb has
  | hasAlt => has
  | selected => isSelected
  | all => true
  end.

(** ** Vocabulary of the specification *)

(** Every image of a scan result, paired with its post, in the order the
    nested [forEach] loops visit them. *)
Definition allImages (data : Api.ScanResponse)
    : list (Api.PostInfo * Api.ImageInfo) :=
  Api.posts data ≫= λ post, pair post <$> Api.images post.

(** The composite key of an image. *)
Definition keyOf (x : Api.PostInfo * Api.ImageInfo) : jsstring :=
  makeKey (Api.uri x.1) (Api.index x.2).

(** What the composite key is derived from: [(post.uri, image.index)]. *)
Definition imageId (x : Api.PostInfo * Api.ImageInfo) : jsstring * Z :=
  (Api.uri x.1, Api.index x.2).

(** Data-model invariant of the specification: [(post.uri, image.index)]
    identifies one image across the whole scan result. *)
Definition UniqueKeys (data : Api.ScanResponse) : Prop :=
  NoDup (imageId <$> allImages data).

(** "The existing alt is absent or empty after trimming." *)
Definition AltAbsentOrBlank (img : Api.ImageInfo) : Prop :=
  Api.alt img = None ∨ ∃ a, Api.alt img = Some a ∧ trim a = [].

(** The draft rule of the Default Derivation, in the words of the
    specification: the existing alt if non-empty after trimming, else the
    generated alt, else the empty string. *)
Definition defaultDraft (img : Api.ImageInfo) : jsstring :=
  match Api.alt img with
  | Some a =>
      if decide (trim a = []) then default [] (Api.generated_alt img) else a
  | None => default [] (Api.generated_alt img)
  end.

(** "The selection state has apply = true and a non-empty trimmed draft." *)
Definition Submitted (altState0 : gmap jsstring AltState)
    (x : Api.PostInfo * Api.ImageInfo) (st : AltState) : Prop :=
  altState0 !! keyOf x = Some st ∧ apply st = true ∧ trim (draftAlt st) ≠ [].

(** The update the specification prescribes for a submitted image. *)
Definition updateFor (x : Api.PostInfo * Api.ImageInfo) (st : AltState)
    : Api.AltUpdate :=
  {| Api.upd_uri := Api.uri x.1;
     Api.image_index := Api.index x.2;
     Api.new_alt := trim (draftAlt st) |}.

(** One iteration of the flattened loop of [initAltStateFromResult]. *)
Definition initStep (m : gmap jsstring AltState)
    (x : Api.PostInfo * Api.ImageInfo) : gmap jsstring AltState :=
  initEntry x.1 m x.2.

(** One iteration of the flattened loop of [bulkSelectMissingAlt]. *)
Definition selectStep (m : gmap jsstring AltState)
    (x : Api.PostInfo * Api.ImageInfo) : gmap jsstring AltState :=
  selectEntry x.1 m x.2.

(** ** A worked scenario

    One post with two images: image 0 has an empty alt and a suggestion,
    image 1 already has the alt "cat". *)

Definition demoImage0 : Api.ImageInfo :=
  {| Api.index := 0; Api.thumb_url := lit "t0"; Api.fullsize_url := lit "f0";
     Api.alt := Some [];
     Api.generated_alt := Some (lit "A dog on a beach") |}.

Definition demoImage1 : Api.ImageInfo :=
  {| Api.index := 1; Api.thumb_url := lit "t1"; Api.fullsize_url := lit "f1";
     Api.alt := Some (lit "cat"); Api.generated_alt := None |}.

Definition demoPost : Api.PostInfo :=
  {| Api.uri := lit "at://did:plc:alice/app.bsky.feed.post/3k";
     Api.cid := lit "bafyrei";
     Api.text := lit "two pictures";
     Api.created_at := None;
     Api.images := [demoImage0; demoImage1] |}.

Definition demoScan : Api.ScanResponse :=
  {| Api.handle := lit "alice.bsky.social"; Api.total_posts := 1;
     Api.total_images := 2; Api.posts := [demoPost];
     Api.alt_generation_enabled := true |}.

(** The user has typed the credentials. *)
Definition demoLogin : AppState :=
  {| handle := lit "alice.bsky.social"; appPassword := lit "abcd-efgh";
     loading := false; applying := false; error := None;
     applyMessage := None; result := None; altState := ∅;
     filterMode := all |}.

(** The state after a first scan has resolved with [demoScan]. *)
Definition demoScanned : AppState :=
  onSubmit demoLogin (Api.Resolved demoScan).

(** The user then replaces the draft of image 1 by "dog" and ticks it. *)
Definition demoEdited : AppState :=
  handleApplyToggle (Api.uri demoPost) 1 true
    (handleAltChange (Api.uri demoPost) 1 (lit "dog") demoScanned).

(** A response that reports every submitted item as failed. *)
Definition demoAllFailed : Api.ApplyResponse :=
  {| Api.updated :=
       [ {| Api.item_uri := Api.uri demoPost; Api.success := false;
            Api.item_error := Some (lit "record not found") |};
         {| Api.item_uri := Api.uri demoPost; Api.success := false;
            Api.item_error := Some (lit "record not found") |} ] |}.

(** ** Rendering (the JSX of [App]) *)

(** [post.images.filter((img) => shouldShowImage(post, img))] *)
Definition visibleImages (s : AppState) (post : Api.PostInfo)
    : list Api.ImageInfo :=
  filter (λ img, shouldShowImage s post img = true) (Api.images post).

(** The [state] a card is rendered from:
    [altState[key] || { apply: false, draftAlt: ... }]. *)
Definition displayState (s : AppState) (post : Api.PostInfo)
    (img : Api.ImageInfo) : AltState :=
  match altState s !! makeKey (Api.uri post) (Api.index img) with
  | Some st => st
  | None => {| apply := false; draftAlt := baseAlt img |}
  end.


(** ** The message of a thrown error ([api.ts])

    [new Error(text || `HTTP error ${res.status}`)], thrown by [scanImages]
    and by [applyAltUpdates] when the response is not [ok]; [text] is the
    body of the response and [status] its status code. *)
Definition httpErrorMessage (text : jsstring) (status : Z) : jsstring :=
  if truthy text then text else lit "HTTP error " ++ lit (pretty status).

(** ** The component as an event-driven machine

    The component state together with the calls that are outstanding.  An
    outstanding apply call remembers the [result] and [altState] its handler
    closed over. *)
Record Machine := {
  ui : AppState;
  scanPending : bool;
  applyPending : option (Api.ScanResponse * gmap jsstring AltState)
}.

Inductive Event :=
| TypeHandle (value : jsstring)
| TypePassword (value : jsstring)
| Submit
| ScanSettled (reply : Api.Reply Api.ScanResponse)
| ClickApply
| ApplySettled (reply : Api.Reply Api.ApplyResponse)
| EditDraft (i j : nat) (value : jsstring)
| ToggleApply (i j : nat) (checked : bool)
| ClickSelectMissing
| ClickClear
| ClickFilter (mode : FilterMode).

(** The card of image [j] of post [i], when it is rendered: there is a scan
    result, [result.total_images] is not [0], and the filter shows the
    image. *)
Definition shownImage (s : AppState) (i j : nat)
    : option (Api.PostInfo * Api.ImageInfo) :=
  match result s with
  | None => None
  | Some result0 =>
      if Z.eqb (Api.total_images result0) 0 then None
      else
        match Api.posts result0 !! i with
        | None => None
        | Some post =>
            match Api.images post !! j with
            | None => None
            | Some img =>
                if shouldShowImage s post img then Some (post, img) else None
            end
        end
  end.

Definition withUi (s : AppState) (m : Machine) : Machine :=
  {| ui := s; scanPending := scanPending m; applyPending := applyPending m |}.

(** One event.  [None] when the page offers no way to raise it: the submit
    button is disabled while [loading], the apply button while [applying];
    the results section (apply, filter and bulk buttons, cards) is rendered
    only when [result] is set; a reply arrives only for an outstanding
    call. *)
Definition fire (e : Event) (m : Machine) : option Machine :=
  let s := ui m in
  match e with
  | TypeHandle value => Some (withUi (setHandle value s) m)
  | TypePassword value => Some (withUi (setAppPassword value s) m)
  | Submit =>
      if loading s then None
      else
        match onSubmit_begin s with
        | (s', Some _) =>
            Some {| ui := s'; scanPending := true;
                    applyPending := applyPending m |}
        | (s', None) => Some (withUi s' m)
        end
  | ScanSettled reply =>
      if scanPending m then
        Some {| ui := match reply with
                      | Api.Resolved data => onSubmit_resolved data s
                      | Api.Rejected err => onSubmit_rejected err s
                      end;
                scanPending := false;
                applyPending := applyPending m |}
      else None
  | ClickApply =>
      match result s with
      | None => None
      | Some result0 =>
          if applying s then None
          else
            match onApplyChanges_begin s with
            | (s', Some _) =>
                Some {| ui := s'; scanPending := scanPending m;
                        applyPending := Some (result0, altState s) |}
            | (s', None) => Some (withUi s' m)
            end
      end
  | ApplySettled reply =>
      match applyPending m with
      | None => None
      | Some (result0, altState0) =>
          Some {| ui := match reply with
                        | Api.Resolved resp =>
                            onApplyChanges_resolved result0 altState0 resp s
                        | Api.Rejected err => onApplyChanges_rejected err s
                        end;
                  scanPending := scanPending m;
                  applyPending := None |}
      end
  | EditDraft i j value =>
      match shownImage s i j with
      | Some (post, img) =>
          Some (withUi (handleAltChange (Api.uri post) (Api.index img)
                          value s) m)
      | None => None
      end
  | ToggleApply i j checked =>
      match shownImage s i j with
      | Some (post, img) =>
          Some (withUi (handleApplyToggle (Api.uri post) (Api.index img)
                          checked s) m)
      | None => None
      end
  | ClickSelectMissing =>
      match result s with
      | Some _ => Some (withUi (bulkSelectMissingAlt s) m)
      | None => None
      end
  | ClickClear =>
      match result s with
      | Some _ => Some (withUi (bulkClearSelections s) m)
      | None => None
      end
  | ClickFilter mode =>
      match result s with
      | Some _ => Some (withUi (setFilterMode mode s) m)
      | None => None
      end
  end.

(** A sequence of events, from left to right. *)
Fixpoint run (events : list Event) (m : Machine) : option Machine :=
  match events with
  | [] => Some m
  | e :: events' =>
      match fire e m with
      | Some m' => run events' m'
      | None => None
      end
  end.

Definition initialMachine : Machine :=
  {| ui := initialState; scanPending := false; applyPending := None |}.

(** No scan is submitted while an apply call is outstanding. *)
Fixpoint noScanDuringApply (events : list Event) (m : Machine) : bool :=
  match events with
  | [] => true
  | e :: events' =>
      match e with
      | Submit => negb (applying (ui m))
      | _ => true
      end
      && match fire e m with
         | Some m' => noScanDuringApply events' m'
         | None => true
         end
  end.

(** A session: log in, scan, edit image 1, apply; every item fails. *)
Definition demoSession : list Event :=
  [ TypeHandle (lit "alice.bsky.social"); TypePassword (lit "abcd-efgh");
    Submit; ScanSettled (Api.Resolved demoScan);
    EditDraft 0 1 (lit "dog"); ToggleApply 0 1 true;
    ClickApply; ClickFilter selected;
    ApplySettled (Api.Resolved demoAllFailed) ].

(** A session in which a second scan is submitted, and resolves, while the
    apply call is still outstanding. *)
Definition demoRace : list Event :=
  [ TypeHandle (lit "alice.bsky.social"); TypePassword (lit "abcd-efgh");
    Submit; ScanSettled (Api.Resolved demoScan);
    ClickApply; Submit;
    ApplySettled (Api.Resolved demoAllFailed) ].

(** The progress flags tell which calls are outstanding. *)
Definition flagsMatchCalls (m : Machine) : Prop :=
  loading (ui m) = scanPending m
  ∧ applying (ui m) = match applyPending m with
                      | Some _ => true
                      | None => false
                      end.

(** The selection state has an entry under exactly the composite keys of
    the images of the scan result, and none when there is no result. *)
Definition storesAgree (s : AppState) : Prop :=
  match result s with
  | Some result0 =>
      ∀ k, is_Some (altState s !! k) ↔ k ∈ keyOf <$> allImages result0
  | None => altState s = ∅
  end.

(** What holds along a session without a scan during an apply. *)
Definition sessionInv (m : Machine) : Prop :=
  flagsMatchCalls m
  ∧ storesAgree (ui m)
  ∧ (scanPending m = true → result (ui m) = None ∧ applyPending m = None)
  ∧ (∀ result0 altState0,
       applyPending m = Some (result0, altState0) →
       result (ui m) = Some result0).

(** * Properties *)

(** ** Strings *)

Lemma truthy_true (s : jsstring) : truthy s = true ↔ s ≠ [].
Proof. destruct s; simpl; split; congruence. Qed.

Lemma truthy_false (s : jsstring) : truthy s = false ↔ s = [].
Proof. destruct s; simpl; split; congruence. Qed.

Lemma length_eqb_nil {A} (s : list A) : Nat.eqb (length s) 0 = true ↔ s = [].
Proof. destruct s; simpl; split; congruence. Qed.

Lemma trim_nil : trim [] = [].
Proof. reflexivity. Qed.

Lemma trim_nonempty (s : jsstring) : trim s ≠ [] → s ≠ [].
Proof. intros H ->. by apply H. Qed.

Lemma orEmpty_default (x : option jsstring) : orEmpty x = default [] x.
Proof. destruct x as [[|c s]|]; reflexivity. Qed.

(** ** Composite keys: [makeKey] is injective *)

Lemma lit_String a s : lit (String a s) = Ascii.N_of_ascii a :: lit s.
Proof. reflexivity. Qed.

Lemma lit_inj s1 s2 : lit s1 = lit s2 → s1 = s2.
Proof.
  revert s2. induction s1 as [|a s1 IH]; intros [|b s2]; try done.
  rewrite !lit_String. intros [= Ha Hs].
  f_equal; [|by apply IH].
  rewrite <- (Ascii.ascii_N_embedding a), <- (Ascii.ascii_N_embedding b).
  by rewrite Ha.
Qed.

(** The decimal rendering of an integer holds no colon. *)
Lemma pretty_N_char_colon d : Ascii.N_of_ascii (pretty_N_char d) ≠ 58%N.
Proof. unfold pretty_N_char. by repeat case_match. Qed.

Lemma pretty_N_go_colon x s :
  58%N ∉ lit s → 58%N ∉ lit (pretty_N_go x s).
Proof.
  revert s. induction (N.lt_wf_0 x) as [x _ IH]; intros s Hs.
  destruct (decide (x = 0%N)) as [->|Hx]; [by rewrite pretty_N_go_0|].
  rewrite pretty_N_go_step by lia. apply IH; [apply N.div_lt; lia|].
  rewrite lit_String, not_elem_of_cons. split; [|done].
  intros E. by apply (pretty_N_char_colon (x `mod` 10)%N).
Qed.

Lemma pretty_Z_colon (z : Z) : 58%N ∉ lit (pretty z).
Proof.
  assert (∀ p : positive, 58%N ∉ lit (pretty p)) as Hp.
  { intros p. unfold pretty, pretty_positive, pretty, pretty_N.
    case_decide; [done|]. apply pretty_N_go_colon, not_elem_of_nil. }
  destruct z as [|p|p]; unfold pretty, pretty_Z.
  - by intros [=]%list_elem_of_singleton.
  - apply Hp.
  - change (58%N ∉ 45%N :: lit (pretty p)).
    rewrite not_elem_of_cons. split; [done|apply Hp].
Qed.

(** A text that ends in [::] followed by colon-free characters splits in
    one way only. *)
Lemma key_split (c : N) (u1 u2 d1 d2 : jsstring) :
  c ∉ d1 → c ∉ d2 →
  u1 ++ [c; c] ++ d1 = u2 ++ [c; c] ++ d2 → u1 = u2 ∧ d1 = d2.
Proof.
  intros H1 H2. revert u2.
  induction u1 as [|a u1 IH]; intros [|b u2]; simpl; intros E.
  - by simplify_eq.
  - exfalso. apply H1. destruct u2 as [|b' u2]; simplify_eq/=.
    + apply list_elem_of_here.
    + rewrite elem_of_app. right. apply list_elem_of_here.
  - exfalso. apply H2. destruct u1 as [|a' u1]; simplify_eq/=.
    + apply list_elem_of_here.
    + rewrite elem_of_app. right. apply list_elem_of_here.
  - injection E as -> E. apply IH in E as [-> ->]. done.
Qed.

Lemma makeKey_inj u1 i1 u2 i2 :
  makeKey u1 i1 = makeKey u2 i2 → u1 = u2 ∧ i1 = i2.
Proof.
  unfold makeKey. change (lit "::") with [58%N; 58%N].
  intros [-> E]%key_split; [|apply pretty_Z_colon..].
  split; [done|]. by apply (inj pretty), lit_inj.
Qed.

Lemma keyOf_imageId (x y : Api.PostInfo * Api.ImageInfo) :
  keyOf x = keyOf y → imageId x = imageId y.
Proof.
  unfold keyOf, imageId. by intros [-> ->]%makeKey_inj.
Qed.

Lemma unique_keys (data : Api.ScanResponse) :
  UniqueKeys data → NoDup (keyOf <$> allImages data).
Proof.
  unfold UniqueKeys. generalize (allImages data) as l. intros l.
  induction l as [|x l IH]; [constructor|].
  rewrite !fmap_cons, !NoDup_cons. intros [Hx Hl]. split; [|by apply IH].
  intros (y & E & Hy)%list_elem_of_fmap. apply Hx.
  rewrite (keyOf_imageId x y E). by apply list_elem_of_fmap_2.
Qed.

(** ** The three renderings of "has alt text" agree with the specification *)

Lemma imgAltMissing_spec (img : Api.ImageInfo) :
  imgAltMissing img = true ↔ AltAbsentOrBlank img.
Proof.
  unfold imgAltMissing, AltAbsentOrBlank.
  destruct (Api.alt img) as [a|]; [|by intuition].
  rewrite orb_true_iff, negb_true_iff, truthy_false, length_eqb_nil.
  split.
  - intros [->|H]; right; eexists; split; eauto.
  - intros [?|(a' & [= <-] & H)]; [done|by right].
Qed.

Lemma imgHasAlt_negb (img : Api.ImageInfo) :
  imgHasAlt img = negb (imgAltMissing img).
Proof.
  unfold imgHasAlt, imgAltMissing.
  destruct (Api.alt img) as [a|]; [|done].
  by rewrite negb_orb, negb_involutive.
Qed.

Lemma imgHasAlt_false (img : Api.ImageInfo) :
  imgHasAlt img = false ↔ AltAbsentOrBlank img.
Proof.
  rewrite imgHasAlt_negb, negb_false_iff. apply imgAltMissing_spec.
Qed.

Lemma imgHasAlt_true (img : Api.ImageInfo) :
  imgHasAlt img = true ↔ ¬ AltAbsentOrBlank img.
Proof.
  rewrite <- imgHasAlt_false. destruct (imgHasAlt img); split; congruence.
Qed.

Lemma baseAlt_spec (img : Api.ImageInfo) : baseAlt img = defaultDraft img.
Proof.
  unfold baseAlt, defaultDraft.
  destruct (Api.alt img) as [a|]; [|apply orEmpty_default].
  destruct (decide (trim a = [])) as [E|E].
  - rewrite E. simpl. rewrite andb_false_r. apply orEmpty_default.
  - apply trim_nonempty in E as E'.
    apply truthy_true in E' as ->.
    destruct (trim a); [done|reflexivity].
Qed.

(** ** The nested loops as one loop over [allImages] *)

Lemma foldl_posts {B} (f : Api.PostInfo → B → Api.ImageInfo → B)
    (data : Api.ScanResponse) (b : B) :
  foldl (λ acc post, foldl (f post) acc (Api.images post)) b (Api.posts data)
  = foldl (λ acc x, f x.1 acc x.2) b (allImages data).
Proof.
  unfold allImages. generalize (Api.posts data) as ps. intros ps. revert b.
  induction ps as [|p ps IH]; intros b; [done|].
  simpl. rewrite foldl_app, IH. f_equal.
  generalize (Api.images p) as imgs. intros imgs. revert b.
  induction imgs as [|i imgs IHi]; intros b; [done|]. simpl. apply IHi.
Qed.

Lemma elem_of_allImages (data : Api.ScanResponse) post img :
  (post, img) ∈ allImages data ↔
  post ∈ Api.posts data ∧ img ∈ Api.images post.
Proof.
  unfold allImages. rewrite list_elem_of_bind. split.
  - intros (p & Hin & Hp). apply list_elem_of_fmap in Hin as (i & [= -> ->] & Hi).
    done.
  - intros [Hp Hi]. exists post. split; [|done].
    apply list_elem_of_fmap. eauto.
Qed.

Lemma unique_key_inj {A} (f : A → jsstring) (l : list A) x y :
  NoDup (f <$> l) → x ∈ l → y ∈ l → f x = f y → x = y.
Proof.
  induction l as [|z l IH]; [by intros _ ?%elem_of_nil|].
  rewrite fmap_cons, NoDup_cons. intros [Hz Hnd] Hx Hy E.
  apply elem_of_cons in Hx as [->|Hx]; apply elem_of_cons in Hy as [->|Hy].
  - done.
  - exfalso. apply Hz. rewrite E. by apply list_elem_of_fmap_2.
  - exfalso. apply Hz. rewrite <- E. by apply list_elem_of_fmap_2.
  - by apply IH.
Qed.

(** ** Default derivation ([initAltStateFromResult]) *)

Section init_loop.
Implicit Types (l : list (Api.PostInfo * Api.ImageInfo)).
Implicit Types (m : gmap jsstring AltState).


Lemma init_loop_frame l m k :
  k ∉ keyOf <$> l → foldl initStep m l !! k = m !! k.
Proof.
  revert m. induction l as [|x l IH]; intros m Hk; [done|].
  rewrite fmap_cons, not_elem_of_cons in Hk. destruct Hk as [Hx Hl].
  simpl. rewrite IH by done. unfold initStep, initEntry.
  by rewrite lookup_insert_ne.
Qed.

Lemma init_loop_lookup l m x :
  NoDup (keyOf <$> l) → x ∈ l →
  foldl initStep m l !! keyOf x
  = Some {| apply := imgAltMissing x.2; draftAlt := baseAlt x.2 |}.
Proof.
  revert m. induction l as [|y l IH]; intros m Hnd Hx.
  { by apply elem_of_nil in Hx. }
  rewrite fmap_cons, NoDup_cons in Hnd. destruct Hnd as [Hy Hnd].
  simpl. apply elem_of_cons in Hx as [->|Hx].
  - rewrite init_loop_frame by done. unfold initStep, initEntry.
    apply lookup_insert_eq.
  - by apply IH.
Qed.
End init_loop.

Lemma initAltState_lookup (data : Api.ScanResponse) post img :
  UniqueKeys data → post ∈ Api.posts data → img ∈ Api.images post →
  initAltState data !! makeKey (Api.uri post) (Api.index img)
  = Some {| apply := imgAltMissing img; draftAlt := baseAlt img |}.
Proof.
  intros Hu%unique_keys Hp Hi. unfold initAltState. rewrite foldl_posts.
  apply (init_loop_lookup (allImages data) ∅ (post, img)); [done|].
  by apply elem_of_allImages.
Qed.

(** Without the uniqueness invariant every key the loop visited still holds
    the default of some image with that key (the last one visited). *)
Lemma initAltState_is_Some (data : Api.ScanResponse) k st :
  initAltState data !! k = Some st →
  ∃ x, x ∈ allImages data ∧ keyOf x = k ∧
       st = {| apply := imgAltMissing x.2; draftAlt := baseAlt x.2 |}.
Proof.
  unfold initAltState. rewrite foldl_posts.
  generalize (allImages data) as l. intros l.
  induction l as [|x l IH] using rev_ind; [simpl; by rewrite lookup_empty|].
  rewrite foldl_app. simpl. unfold initEntry at 1.
  destruct (decide (keyOf x = k)) as [E|E].
  - unfold keyOf in E. rewrite E, lookup_insert_eq. intros [= <-].
    exists x. rewrite elem_of_app, list_elem_of_singleton. auto.
  - unfold keyOf in E. rewrite lookup_insert_ne by done.
    intros (y & Hy & Hk & ->)%IH. exists y. rewrite elem_of_app. auto.
Qed.

(** C1. Default derivation.  After a scan has resolved with [data], every
    image of [data] has a selection state stored under its composite key;
    its [draftAlt] is the existing alt if that is non-empty after trimming,
    otherwise the generated alt if present, otherwise the empty string, and
    its [apply] flag is true exactly when the existing alt is absent or
    empty after trimming.  No two images of [data] share both post uri and
    index, as the data model of the specification requires of a scan
    result (were a key visited twice, the later image would overwrite the
    entry of the earlier one). *)
Theorem C1_default_derivation (data : Api.ScanResponse) (s : AppState)
    (post : Api.PostInfo) (img : Api.ImageInfo) :
  UniqueKeys data →
  post ∈ Api.posts data → img ∈ Api.images post →
  ∃ st : AltState,
    altState (onSubmit_resolved data s)
      !! makeKey (Api.uri post) (Api.index img) = Some st
    ∧ draftAlt st
      = match Api.alt img with
        | Some a =>
            if decide (trim a = []) then
              match Api.generated_alt img with Some g => g | None => [] end
            else a
        | None =>
            match Api.generated_alt img with Some g => g | None => [] end
        end
    ∧ (apply st = true ↔
       Api.alt img = None ∨ ∃ a, Api.alt img = Some a ∧ trim a = []).
Proof.
  intros Hu Hp Hi. eexists. split; [|split].
  - simpl. by apply initAltState_lookup.
  - simpl. apply baseAlt_spec.
  - simpl. apply imgAltMissing_spec.
Qed.

(** ** Apply batch ([onApplyChanges], the loop that fills [updates]) *)

Lemma pushUpdate_app altState0 post updates img :
  pushUpdate altState0 post updates img
  = updates ++ pushUpdate altState0 post [] img.
Proof.
  unfold pushUpdate.
  destruct (altState0 !! _) as [st|]; [|by rewrite app_nil_r].
  destruct (apply st); simpl; [|by rewrite app_nil_r].
  destruct (truthy (trim (draftAlt st))); simpl; [done|by rewrite app_nil_r].
Qed.

Lemma pushUpdate_elem altState0 (x : Api.PostInfo * Api.ImageInfo) u :
  u ∈ pushUpdate altState0 x.1 [] x.2 ↔
  ∃ st, Submitted altState0 x st ∧ u = updateFor x st.
Proof.
  unfold pushUpdate, Submitted, keyOf, updateFor.
  destruct (altState0 !! _) as [st|].
  - destruct (apply st) eqn:Ha; simpl.
    + destruct (truthy (trim (draftAlt st))) eqn:Ht; simpl.
      * apply truthy_true in Ht. rewrite list_elem_of_singleton. split.
        -- intros ->. by exists st.
        -- by intros (st' & ([= <-] & _ & _) & ->).
      * apply truthy_false in Ht. rewrite elem_of_nil. split; [done|].
        by intros (st' & ([= <-] & _ & Hne) & _).
    + rewrite elem_of_nil. split; [done|].
      intros (st' & ([= <-] & Hb & _) & _). congruence.
  - rewrite elem_of_nil. split; [done|]. by intros (st' & (? & _) & _).
Qed.

Lemma update_loop_elem altState0 (l : list (Api.PostInfo * Api.ImageInfo))
    acc u :
  u ∈ foldl (λ updates x, pushUpdate altState0 x.1 updates x.2) acc l ↔
  u ∈ acc ∨ ∃ x st, x ∈ l ∧ Submitted altState0 x st ∧ u = updateFor x st.
Proof.
  revert acc. induction l as [|y l IH]; intros acc; simpl.
  - split; [auto|]. intros [?|(x & st & []%elem_of_nil & _)]. done.
  - rewrite IH, pushUpdate_app, elem_of_app, pushUpdate_elem. split.
    + intros [[?|(st & Hs & ->)]|(x & st & Hx & Hs & ->)]; [by left|..].
      * right. exists y, st. rewrite elem_of_cons. auto.
      * right. exists x, st. rewrite elem_of_cons. auto.
    + intros [?|(x & st & Hx & Hs & ->)]; [by left; left|].
      apply elem_of_cons in Hx as [->|Hx]; [left; right; eauto|].
      right. eauto.
Qed.

Lemma buildUpdates_elem result0 altState0 u :
  u ∈ buildUpdates result0 altState0 ↔
  ∃ x st, x ∈ allImages result0 ∧ Submitted altState0 x st
          ∧ u = updateFor x st.
Proof.
  unfold buildUpdates. rewrite foldl_posts, update_loop_elem, elem_of_nil.
  split; [by intros [[]|?]|auto].
Qed.

(** C2. Apply batch construction.  The batch built from a scan result and a
    selection state contains the update [{uri, image_index, new_alt}] with
    [new_alt] the trimmed draft of an image exactly when the selection state
    stored for that image has [apply = true] and a non-empty trimmed draft;
    no member of the batch has an empty [new_alt]. *)
Theorem C2_batch_construction (result0 : Api.ScanResponse)
    (altState0 : gmap jsstring AltState) :
  (∀ u : Api.AltUpdate,
     u ∈ buildUpdates result0 altState0 ↔
     ∃ post img st,
       post ∈ Api.posts result0 ∧ img ∈ Api.images post
       ∧ altState0 !! makeKey (Api.uri post) (Api.index img) = Some st
       ∧ apply st = true ∧ trim (draftAlt st) ≠ []
       ∧ u = {| Api.upd_uri := Api.uri post;
                Api.image_index := Api.index img;
                Api.new_alt := trim (draftAlt st) |})
  ∧ (∀ u : Api.AltUpdate,
       u ∈ buildUpdates result0 altState0 → Api.new_alt u ≠ []).
Proof.
  assert (∀ u : Api.AltUpdate,
     u ∈ buildUpdates result0 altState0 ↔
     ∃ post img st,
       post ∈ Api.posts result0 ∧ img ∈ Api.images post
       ∧ altState0 !! makeKey (Api.uri post) (Api.index img) = Some st
       ∧ apply st = true ∧ trim (draftAlt st) ≠ []
       ∧ u = {| Api.upd_uri := Api.uri post;
                Api.image_index := Api.index img;
                Api.new_alt := trim (draftAlt st) |}) as Hiff.
  { intros u. rewrite buildUpdates_elem. split.
    - intros ([post img] & st & Hx & (Hl & Ha & Ht) & ->).
      apply elem_of_allImages in Hx as [Hp Hi].
      exists post, img, st. done.
    - intros (post & img & st & Hp & Hi & Hl & Ha & Ht & ->).
      exists (post, img), st. split; [by apply elem_of_allImages|done]. }
  split; [exact Hiff|].
  intros u (post & img & st & _ & _ & _ & _ & Ht & ->)%Hiff. done.
Qed.

Lemma buildUpdates_nil result0 altState0 :
  buildUpdates result0 altState0 = [] ↔
  ∀ x st, x ∈ allImages result0 → ¬ Submitted altState0 x st.
Proof.
  split.
  - intros E x st Hx Hs.
    assert (updateFor x st ∈ buildUpdates result0 altState0) as Hin.
    { apply buildUpdates_elem. eauto. }
    rewrite E in Hin. by apply elem_of_nil in Hin.
  - intros H. apply elem_of_nil_inv. intros u Hu.
    apply buildUpdates_elem in Hu as (x & st & Hx & Hs & _).
    by apply (H x st).
Qed.

(** ** Failure of the network call ([onSubmit], [onApplyChanges]) *)

Lemma onApplyChanges_begin_stores (s : AppState) :
  result (onApplyChanges_begin s).1 = result s
  ∧ altState (onApplyChanges_begin s).1 = altState s.
Proof.
  unfold onApplyChanges_begin. destruct (result s) as [r|] eqn:E; [|done].
  by destruct (Nat.eqb _ 0).
Qed.

Lemma onSubmit_begin_stores (s : AppState) :
  result (onSubmit_begin s).1 = None ∧ altState (onSubmit_begin s).1 = ∅.
Proof. unfold onSubmit_begin. by destruct (_ || _). Qed.

(** C3, as stated, fails for the scan call: a second scan that is issued
    and then rejected leaves the Scan Result Store and the Selection State
    Store empty, not with the values of the first scan. *)
Lemma C3_scan_failure_discards :
  (onSubmit_begin demoScanned).2 ≠ None
  ∧ result demoScanned = Some demoScan
  ∧ ¬ (result (onSubmit demoScanned
                 (Api.Rejected (Api.RawText (lit "Internal Server Error"))))
       = result demoScanned
       ∧ altState (onSubmit demoScanned
                     (Api.Rejected (Api.RawText (lit "Internal Server Error"))))
         = altState demoScanned).
Proof.
  split; [done|]. split; [reflexivity|]. intros [H _]. discriminate H.
Qed.

(** C3, amended.  A rejected apply call leaves the Scan Result Store and
    the Selection State Store exactly as they were when the apply was
    triggered, and surfaces an error message.  The [catch] block of either
    handler changes neither store, whatever state is current when the call
    is rejected; a rejected scan therefore leaves both stores as the start
    of the submission reset them: empty. *)
Theorem C3_transport_failure (s : AppState) (err : Api.Failure) :
  (result (onApplyChanges s (Api.Rejected err)) = result s
   ∧ altState (onApplyChanges s (Api.Rejected err)) = altState s)
  ∧ (result (onApplyChanges_rejected err s) = result s
     ∧ altState (onApplyChanges_rejected err s) = altState s
     ∧ error (onApplyChanges_rejected err s)
       = Some (errorText (lit "An error occurred while applying changes.")
                 err))
  ∧ (result (onSubmit_rejected err s) = result s
     ∧ altState (onSubmit_rejected err s) = altState s
     ∧ error (onSubmit_rejected err s)
       = Some (errorText (lit "An error occurred while scanning.") err))
  ∧ (result (onSubmit s (Api.Rejected err)) = None
     ∧ altState (onSubmit s (Api.Rejected err)) = ∅).
Proof.
  split; [|split; [done|split; [done|]]].
  - pose proof (onApplyChanges_begin_stores s) as [Hr Ha].
    unfold onApplyChanges.
    by destruct (onApplyChanges_begin s) as [s' [req|]]; simpl in *.
  - pose proof (onSubmit_begin_stores s) as [Hr Ha].
    unfold onSubmit.
    by destruct (onSubmit_begin s) as [s' [req|]]; simpl in *.
Qed.

(** ** Reconciliation after a resolved apply call *)

Lemma nextResult_lookup result0 altState0 i j post img :
  Api.posts result0 !! i = Some post → Api.images post !! j = Some img →
  ∃ post1,
    Api.posts (nextResult result0 altState0) !! i = Some post1
    ∧ Api.uri post1 = Api.uri post
    ∧ Api.images post1 !! j = Some (mergeImage altState0 post img).
Proof.
  intros Hp Hi. exists (mergePost altState0 post). simpl.
  rewrite !list_lookup_fmap, Hp, Hi. done.
Qed.

Lemma mergeImage_submitted altState0 post img st :
  Submitted altState0 (post, img) st →
  mergeImage altState0 post img
  = {| Api.index := Api.index img;
       Api.thumb_url := Api.thumb_url img;
       Api.fullsize_url := Api.fullsize_url img;
       Api.alt := Some (trim (draftAlt st));
       Api.generated_alt := Api.generated_alt img |}.
Proof.
  intros (Hl & Ha & Ht). unfold mergeImage. unfold keyOf in Hl. simpl in Hl.
  rewrite Hl, Ha. apply truthy_true in Ht. by rewrite Ht.
Qed.

Lemma onApplyChanges_issued (s : AppState) result0 x st :
  result s = Some result0 → x ∈ allImages result0 →
  Submitted (altState s) x st →
  ∃ s',
    onApplyChanges_begin s
    = (s', Some {| Api.apply_handle := handle s;
                   Api.apply_app_password := appPassword s;
                   Api.updates := buildUpdates result0 (altState s) |})
    ∧ result s' = result s ∧ altState s' = altState s.
Proof.
  intros Hr Hx Hs. unfold onApplyChanges_begin. rewrite Hr.
  destruct (Nat.eqb _ 0) eqn:E.
  - apply length_eqb_nil in E. exfalso.
    eapply buildUpdates_nil in E; eauto.
  - eexists. split; [reflexivity|]. by rewrite <- Hr.
Qed.

(** C4. Optimistic reconciliation.  Let an image of the current scan result
    be selected ([apply = true]) with a non-empty trimmed draft.  Then the
    apply handler issues a call whose batch holds the image's update, and
    once that call resolves the Scan Result Store holds, at the position of
    that image, the image with its [alt] replaced by the trimmed draft,
    whatever the response reports for any item.  The same holds when other
    events have changed the state between the trigger and the reply. *)
Theorem C4_optimistic_reconciliation (s : AppState)
    (result0 : Api.ScanResponse) (i j : nat)
    (post : Api.PostInfo) (img : Api.ImageInfo) (st : AltState) :
  result s = Some result0 →
  Api.posts result0 !! i = Some post → Api.images post !! j = Some img →
  altState s !! makeKey (Api.uri post) (Api.index img) = Some st →
  apply st = true → trim (draftAlt st) ≠ [] →
  let img' := {| Api.index := Api.index img;
                 Api.thumb_url := Api.thumb_url img;
                 Api.fullsize_url := Api.fullsize_url img;
                 Api.alt := Some (trim (draftAlt st));
                 Api.generated_alt := Api.generated_alt img |} in
  (∃ req, (onApplyChanges_begin s).2 = Some req
          ∧ {| Api.upd_uri := Api.uri post;
               Api.image_index := Api.index img;
               Api.new_alt := trim (draftAlt st) |} ∈ Api.updates req)
  ∧ (∀ resp : Api.ApplyResponse,
       ∃ result1 post1,
         result (onApplyChanges s (Api.Resolved resp)) = Some result1
         ∧ Api.posts result1 !! i = Some post1
         ∧ Api.uri post1 = Api.uri post
         ∧ Api.images post1 !! j = Some img')
  ∧ (∀ (resp : Api.ApplyResponse) (later : AppState),
       ∃ result1 post1,
         result (onApplyChanges_resolved result0 (altState s) resp later)
         = Some result1
         ∧ Api.posts result1 !! i = Some post1
         ∧ Api.uri post1 = Api.uri post
         ∧ Api.images post1 !! j = Some img').
Proof.
  intros Hr Hp Hi Hl Ha Ht img'.
  assert (Submitted (altState s) (post, img) st) as Hs by done.
  assert ((post, img) ∈ allImages result0) as Hx.
  { apply elem_of_allImages. split; by eapply list_elem_of_lookup_2. }
  destruct (onApplyChanges_issued s result0 _ st Hr Hx Hs) as (s' & Hb & _).
  destruct (nextResult_lookup result0 (altState s) i j post img Hp Hi)
    as (post1 & Hp1 & Hu1 & Hi1).
  rewrite (mergeImage_submitted _ _ _ st Hs) in Hi1.
  split; [|split].
  - rewrite Hb. eexists. split; [reflexivity|]. simpl.
    apply buildUpdates_elem. exists (post, img), st. done.
  - intros resp. unfold onApplyChanges. rewrite Hb, Hr. simpl.
    by exists (nextResult result0 (altState s)), post1.
  - intros resp later. simpl.
    by exists (nextResult result0 (altState s)), post1.
Qed.

(** C5. Empty-batch short-circuit.  When the batch built from the current
    scan result and selection state is empty, the apply handler issues no
    call, leaves the Scan Result Store and the Selection State Store as they
    were, and sets the message "No images selected for update.". *)
Theorem C5_empty_batch (s : AppState) (result0 : Api.ScanResponse)
    (reply : Api.Reply Api.ApplyResponse) :
  result s = Some result0 →
  buildUpdates result0 (altState s) = [] →
  (onApplyChanges_begin s).2 = None
  ∧ result (onApplyChanges s reply) = result s
  ∧ altState (onApplyChanges s reply) = altState s
  ∧ applyMessage (onApplyChanges s reply)
    = Some (lit "No images selected for update.").
Proof.
  intros Hr Hb. unfold onApplyChanges, onApplyChanges_begin.
  rewrite Hr, Hb. simpl. by rewrite <- Hr.
Qed.

(** C10. Submitting a scan with an empty handle or an empty app password
    issues no call and sets the error "Please enter both handle and app
    password."; the previous scan result and all selection state are
    discarded all the same. *)
Theorem C10_missing_credentials (s : AppState)
    (reply : Api.Reply Api.ScanResponse) :
  handle s = [] ∨ appPassword s = [] →
  (onSubmit_begin s).2 = None
  ∧ error (onSubmit s reply)
    = Some (lit "Please enter both handle and app password.")
  ∧ result (onSubmit s reply) = None
  ∧ altState (onSubmit s reply) = ∅.
Proof.
  intros H. unfold onSubmit, onSubmit_begin.
  assert (negb (truthy (handle s)) || negb (truthy (appPassword s)) = true)
    as ->; [|done].
  rewrite orb_true_iff, !negb_true_iff, !truthy_false. done.
Qed.

(** ** Bulk selection ([bulkSelectMissingAlt]) *)

Section select_loop.
Implicit Types (l : list (Api.PostInfo * Api.ImageInfo)).
Implicit Types (m : gmap jsstring AltState).
Implicit Types (x y : Api.PostInfo * Api.ImageInfo).


Lemma select_step_has m x : imgHasAlt x.2 = true → selectStep m x = m.
Proof. intros H. unfold selectStep, selectEntry. by rewrite H. Qed.

Lemma select_step_other m x k : k ≠ keyOf x → selectStep m x !! k = m !! k.
Proof.
  intros Hk. unfold selectStep, selectEntry.
  destruct (negb _); [|done]. by rewrite lookup_insert_ne.
Qed.

Lemma select_step_miss m x :
  imgHasAlt x.2 = false →
  selectStep m x !! keyOf x
  = Some {| apply := true;
            draftAlt := match m !! keyOf x with
                        | Some st => draftAlt st
                        | None => baseAlt x.2
                        end |}.
Proof.
  intros H. unfold selectStep, selectEntry, keyOf. rewrite H. simpl.
  rewrite lookup_insert_eq. by destruct (m !! _).
Qed.

Lemma select_step_fix m x st :
  m !! keyOf x = Some st → apply st = true → selectStep m x = m.
Proof.
  intros Hl Ha. destruct (imgHasAlt x.2) eqn:H.
  { by apply select_step_has. }
  unfold selectStep, selectEntry. unfold keyOf in Hl. rewrite H, Hl. simpl.
  apply insert_id. rewrite Hl. destruct st as [a d]. simpl in Ha.
  by rewrite Ha.
Qed.

Lemma select_loop_keep l m k st :
  m !! k = Some st → apply st = true → foldl selectStep m l !! k = Some st.
Proof.
  revert m. induction l as [|y l IH]; intros m Hl Ha; [done|].
  simpl. apply IH; [|done].
  destruct (decide (k = keyOf y)) as [->|Hk].
  - by rewrite (select_step_fix m y st).
  - by rewrite select_step_other.
Qed.

Lemma select_loop_selected l m x :
  x ∈ l → imgHasAlt x.2 = false →
  ∃ st, foldl selectStep m l !! keyOf x = Some st ∧ apply st = true.
Proof.
  revert m. induction l as [|y l IH]; intros m Hx Hm.
  { by apply elem_of_nil in Hx. }
  apply elem_of_cons in Hx as [->|Hx]; [|by apply IH].
  simpl. pose proof (select_step_miss m y Hm) as Hs.
  eexists.
  split; [apply select_loop_keep; [exact Hs|reflexivity]|reflexivity].
Qed.

Lemma select_loop_fix l m :
  (∀ x, x ∈ l → imgHasAlt x.2 = false →
        ∃ st, m !! keyOf x = Some st ∧ apply st = true) →
  foldl selectStep m l = m.
Proof.
  induction l as [|y l IH]; intros H; [done|].
  simpl. assert (selectStep m y = m) as ->.
  { destruct (imgHasAlt y.2) eqn:Hy; [by apply select_step_has|].
    destruct (H y) as (st & Hl & Ha); [apply list_elem_of_here|done|].
    by apply (select_step_fix m y st). }
  apply IH. intros x Hx. apply H. by apply list_elem_of_further.
Qed.

Lemma select_loop_idem l m :
  foldl selectStep (foldl selectStep m l) l = foldl selectStep m l.
Proof.
  apply select_loop_fix. intros x Hx Hm. by apply select_loop_selected.
Qed.

Lemma select_loop_frame l m k :
  (∀ y, y ∈ l → imgHasAlt y.2 = false → keyOf y ≠ k) →
  foldl selectStep m l !! k = m !! k.
Proof.
  revert m. induction l as [|y l IH]; intros m H; [done|].
  simpl. rewrite IH.
  - destruct (imgHasAlt y.2) eqn:Hy; [by rewrite select_step_has|].
    apply select_step_other. intros ->.
    by apply (H y); [apply list_elem_of_here|..].
  - intros z Hz. apply H. by apply list_elem_of_further.
Qed.

Lemma select_loop_miss l m x :
  NoDup (keyOf <$> l) → x ∈ l → imgHasAlt x.2 = false →
  foldl selectStep m l !! keyOf x
  = Some {| apply := true;
            draftAlt := match m !! keyOf x with
                        | Some st => draftAlt st
                        | None => baseAlt x.2
                        end |}.
Proof.
  revert m. induction l as [|y l IH]; intros m Hnd Hx Hm.
  { by apply elem_of_nil in Hx. }
  rewrite fmap_cons, NoDup_cons in Hnd. destruct Hnd as [Hy Hnd].
  simpl. apply elem_of_cons in Hx as [->|Hx].
  - rewrite select_loop_frame; [by apply select_step_miss|].
    intros z Hz _ E. apply Hy. rewrite <- E. by apply list_elem_of_fmap_2.
  - rewrite IH by done. rewrite select_step_other; [done|].
    intros E. apply Hy. rewrite <- E. by apply list_elem_of_fmap_2.
Qed.
End select_loop.

Lemma selectMissing_idem result0 prev :
  selectMissing result0 (selectMissing result0 prev)
  = selectMissing result0 prev.
Proof. unfold selectMissing. rewrite !foldl_posts. apply select_loop_idem. Qed.

Lemma selectMissing_has_alt result0 prev x :
  UniqueKeys result0 → x ∈ allImages result0 → imgHasAlt x.2 = true →
  selectMissing result0 prev !! keyOf x = prev !! keyOf x.
Proof.
  intros Hu%unique_keys Hx Hh. unfold selectMissing. rewrite foldl_posts.
  apply select_loop_frame. intros y Hy Hm E.
  assert (y = x) as -> by (by eapply (unique_key_inj keyOf)).
  congruence.
Qed.

Lemma selectMissing_missing result0 prev x :
  UniqueKeys result0 → x ∈ allImages result0 → imgHasAlt x.2 = false →
  selectMissing result0 prev !! keyOf x
  = Some {| apply := true;
            draftAlt := match prev !! keyOf x with
                        | Some st => draftAlt st
                        | None => baseAlt x.2
                        end |}.
Proof.
  intros Hu%unique_keys Hx Hm. unfold selectMissing. rewrite foldl_posts.
  by apply select_loop_miss.
Qed.

(** C6. [bulkSelectMissingAlt] is idempotent, from every state.  On a scan
    result in which no two images share both post uri and index it leaves
    the entry (or the absence of an entry) of every image whose alt is
    non-empty after trimming as it was, and gives every image whose alt is
    absent or empty after trimming an entry with [apply = true] whose draft
    is the draft already stored, or the default derivation's draft when
    none was stored. *)
Theorem C6_bulk_select_missing (s : AppState) :
  bulkSelectMissingAlt (bulkSelectMissingAlt s) = bulkSelectMissingAlt s
  ∧ ∀ (result0 : Api.ScanResponse) (post : Api.PostInfo)
      (img : Api.ImageInfo),
      result s = Some result0 → UniqueKeys result0 →
      post ∈ Api.posts result0 → img ∈ Api.images post →
      let key := makeKey (Api.uri post) (Api.index img) in
      (¬ AltAbsentOrBlank img →
       altState (bulkSelectMissingAlt s) !! key = altState s !! key)
      ∧ (AltAbsentOrBlank img →
         altState (bulkSelectMissingAlt s) !! key
         = Some {| apply := true;
                   draftAlt := match altState s !! key with
                               | Some st => draftAlt st
                               | None => defaultDraft img
                               end |}).
Proof.
  split.
  - unfold bulkSelectMissingAlt. destruct (result s) as [r|] eqn:Hr.
    + simpl. rewrite Hr. unfold setAltState. simpl.
      by rewrite selectMissing_idem.
    + by rewrite Hr.
  - intros result0 post img Hr Hu Hp Hi key.
    assert ((post, img) ∈ allImages result0) as Hx
      by (by apply elem_of_allImages).
    unfold bulkSelectMissingAlt. rewrite Hr. simpl. split.
    + intros H%imgHasAlt_true.
      by apply (selectMissing_has_alt result0 _ (post, img)).
    + intros H%imgHasAlt_false. rewrite <- baseAlt_spec.
      by apply (selectMissing_missing result0 _ (post, img)).
Qed.

(** ** Clearing the selection ([bulkClearSelections]) *)

Lemma clearAll_lookup (prev : gmap jsstring AltState) (k : jsstring) :
  clearAll prev !! k
  = (λ value, {| apply := false; draftAlt := draftAlt value |}) <$> prev !! k.
Proof.
  unfold clearAll.
  apply (map_fold_weak_ind
    (λ next (m : gmap jsstring AltState),
       next !! k
       = (λ value, {| apply := false; draftAlt := draftAlt value |})
           <$> m !! k)).
  - by rewrite !lookup_empty.
  - intros i x m next Hi IH.
    destruct (decide (i = k)) as [->|Hne].
    + by rewrite !lookup_insert_eq.
    + by rewrite !lookup_insert_ne.
Qed.

(** C7. [bulkClearSelections] turns every existing entry into one with
    [apply = false] and the same [draftAlt]; a key without an entry before
    has none after; the scan result is not touched. *)
Theorem C7_bulk_clear (s : AppState) (key : jsstring) :
  match altState s !! key with
  | Some st =>
      altState (bulkClearSelections s) !! key
      = Some {| apply := false; draftAlt := draftAlt st |}
  | None => altState (bulkClearSelections s) !! key = None
  end
  ∧ result (bulkClearSelections s) = result s.
Proof.
  split; [|done]. simpl. rewrite clearAll_lookup.
  by destruct (altState s !! key).
Qed.

(** ** Filters ([shouldShowImage]) *)

(** C8. Filter partition.  An image is shown under "all" exactly when it is
    shown under exactly one of "missingAlt" and "hasAlt": the two modes are
    never both true, one of them always is, and "missingAlt" shows exactly
    the images whose alt is absent or empty after trimming. *)
Theorem C8_filter_partition (s : AppState) (post : Api.PostInfo)
    (img : Api.ImageInfo) :
  let shown mode := shouldShowImage (setFilterMode mode s) post img in
  (shown all = true ↔
   (shown missingAlt = true ∧ shown hasAlt = false)
   ∨ (shown missingAlt = false ∧ shown hasAlt = true))
  ∧ shown all = shown missingAlt || shown hasAlt
  ∧ shown missingAlt && shown hasAlt = false
  ∧ (shown missingAlt = true ↔ AltAbsentOrBlank img)
  ∧ (shown hasAlt = true ↔ ¬ AltAbsentOrBlank img).
Proof.
  intros shown. subst shown. unfold shouldShowImage. simpl.
  assert (AltAbsentOrBlank img ↔ imgHasAlt img = false) as Hm
    by (symmetry; apply imgHasAlt_false).
  assert (¬ AltAbsentOrBlank img ↔ imgHasAlt img = true) as Hn
    by (symmetry; apply imgHasAlt_true).
  rewrite Hn, Hm. clear Hn Hm.
  destruct (imgHasAlt img); simpl; intuition congruence.
Qed.

(** ** Single-key edits ([handleAltChange], [handleApplyToggle]) *)

(** C9. Field preservation of single-key edits.  [handleAltChange] stores
    the new draft under the image's key and keeps the key's [apply] flag
    ([false] when the key had no entry); [handleApplyToggle] stores the new
    flag and keeps the key's [draftAlt] (the empty string when the key had
    no entry); under every other key both leave the lookup as it was. *)
Theorem C9_single_key_edits (s : AppState) (uri : jsstring) (index : Z)
    (value : jsstring) (flag : bool) (other : jsstring) :
  other ≠ makeKey uri index →
  let key := makeKey uri index in
  altState (handleAltChange uri index value s) !! key
  = Some {| apply := match altState s !! key with
                     | Some st => apply st
                     | None => false
                     end;
            draftAlt := value |}
  ∧ altState (handleAltChange uri index value s) !! other
    = altState s !! other
  ∧ altState (handleApplyToggle uri index flag s) !! key
    = Some {| apply := flag;
              draftAlt := match altState s !! key with
                          | Some st => draftAlt st
                          | None => []
                          end |}
  ∧ altState (handleApplyToggle uri index flag s) !! other
    = altState s !! other.
Proof.
  intros Hne key. unfold handleAltChange, handleApplyToggle. simpl.
  fold key. rewrite !lookup_insert_eq, !lookup_insert_ne by done. done.
Qed.

(** ** The scenarios of the specification, evaluated *)

Example demo_initial_state :
  altState demoScanned !! makeKey (Api.uri demoPost) 0
  = Some {| apply := true; draftAlt := lit "A dog on a beach" |}
  ∧ altState demoScanned !! makeKey (Api.uri demoPost) 1
    = Some {| apply := false; draftAlt := lit "cat" |}.
Proof. split; vm_compute; reflexivity. Qed.

Example demo_batch :
  buildUpdates demoScan (altState demoEdited)
  = [ {| Api.upd_uri := Api.uri demoPost; Api.image_index := 0;
         Api.new_alt := lit "A dog on a beach" |};
      {| Api.upd_uri := Api.uri demoPost; Api.image_index := 1;
         Api.new_alt := lit "dog" |} ].
Proof. vm_compute. reflexivity. Qed.

Example demo_summary :
  applySummary
    {| Api.updated :=
         [ {| Api.item_uri := lit "a"; Api.success := true;
              Api.item_error := None |};
           {| Api.item_uri := lit "a"; Api.success := true;
              Api.item_error := None |};
           {| Api.item_uri := lit "b"; Api.success := false;
              Api.item_error := Some (lit "record not found") |};
           {| Api.item_uri := lit "c"; Api.success := true;
              Api.item_error := None |} ] |}
  = lit "Applied alt text to 3 post(s). 1 post(s) failed; check logs/errors.".
Proof. vm_compute. reflexivity. Qed.

Example demo_trim :
  trim (lit "  two words ") = lit "two words"
  ∧ trim [0x0A; 0x3000; 0xA0]%N = [].
Proof. split; vm_compute; reflexivity. Qed.

Lemma demoScan_unique : UniqueKeys demoScan.
Proof. apply (bool_decide_unpack _). vm_compute. exact I. Defined.

Lemma C1_default_derivation_witness :
  ∃ st : AltState,
    altState (onSubmit_resolved demoScan demoLogin)
      !! makeKey (Api.uri demoPost) (Api.index demoImage1) = Some st
    ∧ draftAlt st
      = match Api.alt demoImage1 with
        | Some a =>
            if decide (trim a = []) then
              match Api.generated_alt demoImage1 with
              | Some g => g
              | None => []
              end
            else a
        | None =>
            match Api.generated_alt demoImage1 with
            | Some g => g
            | None => []
            end
        end
    ∧ (apply st = true ↔
       Api.alt demoImage1 = None
       ∨ ∃ a, Api.alt demoImage1 = Some a ∧ trim a = []).
Proof.
  apply (C1_default_derivation demoScan demoLogin demoPost demoImage1).
  - exact demoScan_unique.
  - apply list_elem_of_here.
  - apply list_elem_of_further, list_elem_of_here.
Defined.

Lemma C2_batch_construction_witness :
  {| Api.upd_uri := Api.uri demoPost; Api.image_index := 1;
     Api.new_alt := lit "dog" |} ∈ buildUpdates demoScan (altState demoEdited)
  ∧ Api.new_alt {| Api.upd_uri := Api.uri demoPost; Api.image_index := 1;
                   Api.new_alt := lit "dog" |} ≠ [].
Proof.
  assert ({| Api.upd_uri := Api.uri demoPost; Api.image_index := 1;
             Api.new_alt := lit "dog" |}
          ∈ buildUpdates demoScan (altState demoEdited)) as Hin.
  { apply (bool_decide_unpack _). vm_compute. exact I. }
  split; [exact Hin|].
  exact (proj2 (C2_batch_construction demoScan (altState demoEdited)) _ Hin).
Defined.

Lemma C4_optimistic_reconciliation_witness :
  ∃ result1 post1,
    result (onApplyChanges demoEdited (Api.Resolved demoAllFailed))
    = Some result1
    ∧ Api.posts result1 !! 0 = Some post1
    ∧ Api.uri post1 = Api.uri demoPost
    ∧ Api.images post1 !! 1
      = Some {| Api.index := 1; Api.thumb_url := lit "t1";
                Api.fullsize_url := lit "f1";
                Api.alt := Some (trim (lit "dog"));
                Api.generated_alt := None |}.
Proof.
  assert (trim (lit "dog") ≠ []) as Hne by (vm_compute; discriminate).
  exact (proj1 (proj2
    (C4_optimistic_reconciliation demoEdited demoScan 0 1 demoPost
       demoImage1 {| apply := true; draftAlt := lit "dog" |}
       eq_refl eq_refl eq_refl eq_refl eq_refl Hne)) demoAllFailed).
Defined.

Lemma C5_empty_batch_witness :
  (onApplyChanges_begin (bulkClearSelections demoScanned)).2 = None
  ∧ result (onApplyChanges (bulkClearSelections demoScanned)
              (Api.Resolved {| Api.updated := [] |}))
    = result (bulkClearSelections demoScanned)
  ∧ altState (onApplyChanges (bulkClearSelections demoScanned)
                (Api.Resolved {| Api.updated := [] |}))
    = altState (bulkClearSelections demoScanned)
  ∧ applyMessage (onApplyChanges (bulkClearSelections demoScanned)
                    (Api.Resolved {| Api.updated := [] |}))
    = Some (lit "No images selected for update.").
Proof.
  apply (C5_empty_batch (bulkClearSelections demoScanned) demoScan).
  - reflexivity.
  - vm_compute. reflexivity.
Defined.

Lemma C6_bulk_select_missing_witness :
  altState (bulkSelectMissingAlt (bulkClearSelections demoScanned))
    !! makeKey (Api.uri demoPost) (Api.index demoImage1)
  = altState (bulkClearSelections demoScanned)
      !! makeKey (Api.uri demoPost) (Api.index demoImage1)
  ∧ altState (bulkSelectMissingAlt (bulkClearSelections demoScanned))
      !! makeKey (Api.uri demoPost) (Api.index demoImage0)
    = Some {| apply := true;
              draftAlt :=
                match altState (bulkClearSelections demoScanned)
                        !! makeKey (Api.uri demoPost) (Api.index demoImage0)
                with
                | Some st => draftAlt st
                | None => defaultDraft demoImage0
                end |}.
Proof.
  split.
  - apply (proj2 (C6_bulk_select_missing (bulkClearSelections demoScanned))
             demoScan demoPost demoImage1).
    + reflexivity.
    + exact demoScan_unique.
    + apply list_elem_of_here.
    + apply list_elem_of_further, list_elem_of_here.
    + intros [H|(a & [= <-] & H)]; [discriminate H|].
      vm_compute in H. discriminate H.
  - apply (proj2 (C6_bulk_select_missing (bulkClearSelections demoScanned))
             demoScan demoPost demoImage0).
    + reflexivity.
    + exact demoScan_unique.
    + apply list_elem_of_here.
    + apply list_elem_of_here.
    + right. exists []. split; reflexivity.
Defined.

Lemma C9_single_key_edits_witness :
  makeKey (Api.uri demoPost) 0 ≠ makeKey (Api.uri demoPost) 1
  ∧ altState (handleAltChange (Api.uri demoPost) 1 (lit "dog") demoScanned)
      !! makeKey (Api.uri demoPost) 0
    = altState demoScanned !! makeKey (Api.uri demoPost) 0.
Proof.
  assert (makeKey (Api.uri demoPost) 0 ≠ makeKey (Api.uri demoPost) 1) as Hne.
  { vm_compute. discriminate. }
  split; [exact Hne|].
  exact (proj1 (proj2 (C9_single_key_edits demoScanned (Api.uri demoPost) 1
                         (lit "dog") true
                         (makeKey (Api.uri demoPost) 0) Hne))).
Defined.

Lemma C10_missing_credentials_witness :
  (handle initialState = [] ∨ appPassword initialState = [])
  ∧ (onSubmit_begin initialState).2 = None
  ∧ error (onSubmit initialState (Api.Resolved demoScan))
    = Some (lit "Please enter both handle and app password.")
  ∧ result (onSubmit initialState (Api.Resolved demoScan)) = None
  ∧ altState (onSubmit initialState (Api.Resolved demoScan)) = ∅.
Proof.
  split; [left; reflexivity|].
  apply (C10_missing_credentials initialState (Api.Resolved demoScan)).
  left. reflexivity.
Defined.

(** * Further properties of the code *)

(** ** [trim] *)

Lemma trimStart_app_last (s : jsstring) (c : N) :
  isWhiteSpace c = false → trimStart (s ++ [c]) = trimStart s ++ [c].
Proof.
  intros Hc. induction s as [|a s IH]; simpl.
  - by rewrite Hc.
  - destruct (isWhiteSpace a); [exact IH|done].
Qed.

Lemma trimStart_idem (s : jsstring) : trimStart (trimStart s) = trimStart s.
Proof.
  induction s as [|a s IH]; [done|]. simpl.
  destruct (isWhiteSpace a) eqn:Ha; [exact IH|]. simpl. by rewrite Ha.
Qed.

Lemma trimStart_head (s : jsstring) :
  trimStart s = [] ∨ ∃ c r, trimStart s = c :: r ∧ isWhiteSpace c = false.
Proof.
  induction s as [|a s IH]; [by left|]. simpl.
  destruct (isWhiteSpace a) eqn:Ha; [exact IH|]. right. eauto.
Qed.

Lemma trimEnd_cons (c : N) (r : jsstring) :
  isWhiteSpace c = false → trimEnd (c :: r) = c :: trimEnd r.
Proof.
  intros Hc. unfold trimEnd.
  rewrite reverse_cons, trimStart_app_last by done.
  by rewrite reverse_app.
Qed.

Lemma trimEnd_idem (s : jsstring) : trimEnd (trimEnd s) = trimEnd s.
Proof.
  unfold trimEnd. by rewrite reverse_involutive, trimStart_idem.
Qed.

Lemma trim_idem (s : jsstring) : trim (trim s) = trim s.
Proof.
  unfold trim. destruct (trimStart_head s) as [->|(c & r & -> & Hc)]; [done|].
  rewrite trimEnd_cons by done. simpl. rewrite Hc.
  by rewrite trimEnd_cons, trimEnd_idem.
Qed.

(** ** Composite keys *)

(** X1. [makeKey] is injective: two composite keys are equal exactly when
    they come from the same post uri and the same image index. *)
Theorem X1_makeKey_injective (uri1 uri2 : jsstring) (index1 index2 : Z) :
  makeKey uri1 index1 = makeKey uri2 index2 ↔
  uri1 = uri2 ∧ index1 = index2.
Proof.
  split; [apply makeKey_inj|]. by intros [-> ->].
Qed.

(** ** The selection state right after a scan *)

Lemma init_loop_dom (l : list (Api.PostInfo * Api.ImageInfo))
    (m : gmap jsstring AltState) (k : jsstring) :
  is_Some (foldl initStep m l !! k) ↔ is_Some (m !! k) ∨ k ∈ keyOf <$> l.
Proof.
  revert m. induction l as [|x l IH]; intros m.
  - simpl. rewrite elem_of_nil. tauto.
  - rewrite fmap_cons, elem_of_cons.
    change (foldl initStep m (x :: l)) with (foldl initStep (initStep m x) l).
    rewrite IH. unfold initStep, initEntry.
    fold (keyOf x). rewrite lookup_insert_is_Some. split.
    + intros [[->|[_ H]]|H]; auto.
    + intros [H|[->|H]]; auto.
      destruct (decide (keyOf x = k)) as [<-|Hne]; auto.
Qed.

Lemma initAltState_dom (data : Api.ScanResponse) (k : jsstring) :
  is_Some (initAltState data !! k) ↔ k ∈ keyOf <$> allImages data.
Proof.
  unfold initAltState. rewrite foldl_posts.
  change (foldl (λ acc x, initEntry x.1 acc x.2)) with (foldl initStep).
  rewrite init_loop_dom, lookup_empty. split; [|auto].
  intros [[? [=]]|H]; done.
Qed.

Lemma elem_of_keys (data : Api.ScanResponse) (k : jsstring) :
  k ∈ keyOf <$> allImages data ↔
  ∃ post img, post ∈ Api.posts data ∧ img ∈ Api.images post
              ∧ k = makeKey (Api.uri post) (Api.index img).
Proof.
  rewrite list_elem_of_fmap. split.
  - intros ([post img] & -> & Hx). apply elem_of_allImages in Hx as [Hp Hi].
    by exists post, img.
  - intros (post & img & Hp & Hi & ->). exists (post, img).
    split; [done|]. by apply elem_of_allImages.
Qed.

(** X2. Once a scan has resolved, the selection state has an entry under
    exactly the composite keys of the scanned images: every image has one,
    and nothing of an earlier selection state is left. *)
Theorem X2_scan_entries (data : Api.ScanResponse) (s : AppState)
    (k : jsstring) :
  is_Some (altState (onSubmit_resolved data s) !! k) ↔
  ∃ post img, post ∈ Api.posts data ∧ img ∈ Api.images post
              ∧ k = makeKey (Api.uri post) (Api.index img).
Proof.
  simpl. rewrite initAltState_dom. apply elem_of_keys.
Qed.

(** X3. Right after a scan of a result in which no two images share post
    uri and index, the "selected" filter and the "missingAlt" filter show
    the same images. *)
Theorem X3_fresh_selected_is_missing (data : Api.ScanResponse)
    (s : AppState) (post : Api.PostInfo) (img : Api.ImageInfo) :
  UniqueKeys data → post ∈ Api.posts data → img ∈ Api.images post →
  shouldShowImage (setFilterMode selected (onSubmit_resolved data s)) post img
  = shouldShowImage (setFilterMode missingAlt (onSubmit_resolved data s))
      post img.
Proof.
  intros Hu Hp Hi. unfold shouldShowImage. simpl.
  rewrite (initAltState_lookup data post img Hu Hp Hi). simpl.
  by rewrite imgHasAlt_negb, negb_involutive.
Qed.

Lemma defaultDraft_missing (img : Api.ImageInfo) :
  AltAbsentOrBlank img → defaultDraft img = default [] (Api.generated_alt img).
Proof.
  unfold defaultDraft. intros [->|(a & -> & Ha)]; [done|].
  by rewrite decide_True.
Qed.

(** X4. The batch an apply builds right after a scan (same condition on the
    result) holds an update exactly for the images whose alt is absent or
    blank and whose suggestion is not blank, with the trimmed suggestion as
    new alt; images that have alt text, or no suggestion, are left out. *)
Theorem X4_fresh_batch (data : Api.ScanResponse) (s : AppState)
    (u : Api.AltUpdate) :
  UniqueKeys data →
  u ∈ buildUpdates data (altState (onSubmit_resolved data s)) ↔
  ∃ post img,
    post ∈ Api.posts data ∧ img ∈ Api.images post
    ∧ (Api.alt img = None ∨ ∃ a, Api.alt img = Some a ∧ trim a = [])
    ∧ trim (default [] (Api.generated_alt img)) ≠ []
    ∧ u = {| Api.upd_uri := Api.uri post;
             Api.image_index := Api.index img;
             Api.new_alt := trim (default [] (Api.generated_alt img)) |}.
Proof.
  intros Hu. simpl. rewrite buildUpdates_elem. split.
  - intros ([post img] & st & Hx & (Hl & Ha & Ht) & ->).
    apply elem_of_allImages in Hx as [Hp Hi].
    unfold keyOf in Hl. simpl in Hl.
    rewrite (initAltState_lookup data post img Hu Hp Hi) in Hl.
    injection Hl as <-. simpl in *.
    apply imgAltMissing_spec in Ha.
    rewrite baseAlt_spec, defaultDraft_missing in Ht by done.
    exists post, img. unfold updateFor. simpl.
    rewrite baseAlt_spec, defaultDraft_missing by done. done.
  - intros (post & img & Hp & Hi & Hm & Ht & ->).
    exists (post, img),
      {| apply := imgAltMissing img; draftAlt := baseAlt img |}.
    split; [by apply elem_of_allImages|].
    unfold Submitted, updateFor, keyOf. simpl.
    rewrite (initAltState_lookup data post img Hu Hp Hi).
    rewrite baseAlt_spec, defaultDraft_missing by done.
    split; [|done]. split; [done|]. split; [|done].
    by apply imgAltMissing_spec.
Qed.

(** ** Reconciliation ([nextResult]) *)

Lemma mergeImage_index altState0 post img :
  Api.index (mergeImage altState0 post img) = Api.index img.
Proof.
  unfold mergeImage. destruct (altState0 !! _) as [st|]; [|done].
  by destruct (apply st && truthy (trim (draftAlt st))).
Qed.

Lemma mergeImage_not_submitted altState0 post img :
  (∀ st, ¬ Submitted altState0 (post, img) st) →
  mergeImage altState0 post img = img.
Proof.
  intros H. unfold mergeImage.
  destruct (altState0 !! _) as [st|] eqn:Hl; [|done].
  destruct (apply st) eqn:Ha; [|done].
  destruct (truthy (trim (draftAlt st))) eqn:Ht; [|done].
  exfalso. apply (H st). split; [done|]. split; [done|].
  by apply truthy_true.
Qed.

Lemma allImages_nextResult result0 altState0 :
  allImages (nextResult result0 altState0)
  = (λ x, (mergePost altState0 x.1, mergeImage altState0 x.1 x.2))
      <$> allImages result0.
Proof.
  unfold allImages. simpl. generalize (Api.posts result0) as ps. intros ps.
  induction ps as [|p ps IH]; [done|].
  csimpl. rewrite IH, fmap_app. f_equal.
  rewrite <- !list_fmap_compose. done.
Qed.

Lemma imageId_nextResult result0 altState0 :
  imageId <$> allImages (nextResult result0 altState0)
  = imageId <$> allImages result0.
Proof.
  rewrite allImages_nextResult, <- list_fmap_compose.
  apply list_fmap_ext. intros _ [post img] _. unfold imageId. simpl.
  by rewrite mergeImage_index.
Qed.

Lemma keyOf_nextResult result0 altState0 :
  keyOf <$> allImages (nextResult result0 altState0)
  = keyOf <$> allImages result0.
Proof.
  rewrite allImages_nextResult, <- list_fmap_compose.
  apply list_fmap_ext. intros _ [post img] _. unfold keyOf. simpl.
  by rewrite mergeImage_index.
Qed.

Lemma pushUpdate_merged altState0 altState1 post updates img :
  pushUpdate altState0 (mergePost altState1 post) updates
    (mergeImage altState1 post img)
  = pushUpdate altState0 post updates img.
Proof. unfold pushUpdate. simpl. by rewrite mergeImage_index. Qed.

Lemma buildUpdates_nextResult result0 altState0 altState1 :
  buildUpdates (nextResult result0 altState1) altState0
  = buildUpdates result0 altState0.
Proof.
  unfold buildUpdates. rewrite !foldl_posts, allImages_nextResult.
  generalize (allImages result0) as l. intros l.
  generalize (@nil Api.AltUpdate) as acc.
  induction l as [|x l IH]; intros acc; [done|].
  rewrite fmap_cons. simpl. rewrite pushUpdate_merged. apply IH.
Qed.

(** X5. The optimistic update keeps the shape of the scan result: the
    images come in the same order with the same post uri and index (so
    their composite keys, and their uniqueness, are kept), and the handle,
    the counters and the alt-generation flag are carried over. *)
Theorem X5_reconciliation_keeps_shape (result0 : Api.ScanResponse)
    (altState0 : gmap jsstring AltState) :
  (λ x, (Api.uri x.1, Api.index x.2))
    <$> allImages (nextResult result0 altState0)
  = (λ x, (Api.uri x.1, Api.index x.2)) <$> allImages result0
  ∧ length (Api.posts (nextResult result0 altState0))
    = length (Api.posts result0)
  ∧ Api.handle (nextResult result0 altState0) = Api.handle result0
  ∧ Api.total_posts (nextResult result0 altState0)
    = Api.total_posts result0
  ∧ Api.total_images (nextResult result0 altState0)
    = Api.total_images result0
  ∧ Api.alt_generation_enabled (nextResult result0 altState0)
    = Api.alt_generation_enabled result0
  ∧ (UniqueKeys result0 ↔ UniqueKeys (nextResult result0 altState0)).
Proof.
  pose proof (imageId_nextResult result0 altState0) as E.
  split; [exact E|]. split; [simpl; by rewrite length_fmap|].
  do 4 (split; [done|]). unfold UniqueKeys. by rewrite E.
Qed.

(** X6. The optimistic update touches nothing but the alt of submitted
    images: an image whose selection state is not ticked, or whose trimmed
    draft is empty, or that has no selection state, is the same image at
    the same position afterwards. *)
Theorem X6_reconciliation_frame (result0 : Api.ScanResponse)
    (altState0 : gmap jsstring AltState) (i j : nat)
    (post : Api.PostInfo) (img : Api.ImageInfo) :
  Api.posts result0 !! i = Some post → Api.images post !! j = Some img →
  (∀ st, altState0 !! makeKey (Api.uri post) (Api.index img) = Some st →
         apply st = true → trim (draftAlt st) = []) →
  ∃ post1,
    Api.posts (nextResult result0 altState0) !! i = Some post1
    ∧ Api.uri post1 = Api.uri post ∧ Api.cid post1 = Api.cid post
    ∧ Api.text post1 = Api.text post
    ∧ Api.created_at post1 = Api.created_at post
    ∧ length (Api.images post1) = length (Api.images post)
    ∧ Api.images post1 !! j = Some img.
Proof.
  intros Hp Hi H. exists (mergePost altState0 post). simpl.
  rewrite !list_lookup_fmap, Hp, Hi, length_fmap. simpl.
  rewrite mergeImage_not_submitted; [done|].
  intros st (Hl & Ha & Ht). apply Ht. by apply H.
Qed.

(** X7. A resolved apply does not clear the selection: clicking apply again
    right after it issues the same request (the same batch) once more, or
    none if none was issued the first time. *)
Theorem X7_apply_again (s : AppState) (resp : Api.ApplyResponse) :
  (onApplyChanges_begin (onApplyChanges s (Api.Resolved resp))).2
  = (onApplyChanges_begin s).2.
Proof.
  unfold onApplyChanges, onApplyChanges_begin.
  destruct (result s) as [result0|] eqn:Hr; [|by rewrite Hr].
  destruct (Nat.eqb (length (buildUpdates result0 (altState s))) 0) eqn:E.
  - simpl. by rewrite Hr, E.
  - simpl. by rewrite buildUpdates_nextResult, E.
Qed.

Lemma imgHasAlt_merged altState0 post img st :
  Submitted altState0 (post, img) st →
  imgHasAlt (mergeImage altState0 post img) = true.
Proof.
  intros Hs. rewrite (mergeImage_submitted _ _ _ st Hs).
  destruct Hs as (_ & _ & Ht). unfold imgHasAlt. simpl.
  rewrite trim_idem. apply andb_true_iff. split; [by apply truthy_true|].
  apply negb_true_iff. destruct (trim (draftAlt st)); done.
Qed.

Lemma submitted_or_not altState0 (x : Api.PostInfo * Api.ImageInfo) :
  (∃ st, Submitted altState0 x st) ∨ (∀ st, ¬ Submitted altState0 x st).
Proof.
  unfold Submitted. destruct (altState0 !! keyOf x) as [st|]; [|right].
  - destruct (apply st) eqn:Ha.
    + destruct (decide (trim (draftAlt st) = [])) as [Ht|Ht].
      * right. intros st' ([= <-] & _ & H). done.
      * left. by exists st.
    + right. intros st' ([= <-] & H & _). congruence.
  - by intros st' ([=] & _).
Qed.

(** X8. After the optimistic update the "hasAlt" filter shows an image
    exactly when it showed it before or the image was submitted (ticked,
    with a non-empty trimmed draft): the alt written back is never blank. *)
Theorem X8_reconciled_has_alt (s : AppState)
    (altState0 : gmap jsstring AltState) (post : Api.PostInfo)
    (img : Api.ImageInfo) :
  shouldShowImage (setFilterMode hasAlt s) (mergePost altState0 post)
    (mergeImage altState0 post img) = true
  ↔ shouldShowImage (setFilterMode hasAlt s) post img = true
    ∨ ∃ st, altState0 !! makeKey (Api.uri post) (Api.index img) = Some st
            ∧ apply st = true ∧ trim (draftAlt st) ≠ [].
Proof.
  unfold shouldShowImage. simpl.
  destruct (submitted_or_not altState0 (post, img)) as [[st Hs]|Hn].
  - rewrite (imgHasAlt_merged _ _ _ st Hs). split; [|done].
    intros _. right. by exists st.
  - rewrite mergeImage_not_submitted by done. split; [auto|].
    intros [H|[st Hs]]; [done|]. by destruct (Hn st).
Qed.

(** ** Bulk operations *)

Lemma select_step_entry (m : gmap jsstring AltState)
    (x : Api.PostInfo * Api.ImageInfo) (k : jsstring) (st : AltState) :
  m !! k = Some st →
  ∃ st1, selectStep m x !! k = Some st1 ∧ draftAlt st1 = draftAlt st
         ∧ (apply st = true → apply st1 = true).
Proof.
  intros Hl. destruct (decide (k = keyOf x)) as [->|Hne].
  - destruct (imgHasAlt x.2) eqn:Hx.
    + rewrite select_step_has by done. eauto.
    + rewrite select_step_miss, Hl by done. eauto.
  - rewrite select_step_other by done. eauto.
Qed.

Lemma select_loop_entry (l : list (Api.PostInfo * Api.ImageInfo))
    (m : gmap jsstring AltState) (k : jsstring) (st : AltState) :
  m !! k = Some st →
  ∃ st1, foldl selectStep m l !! k = Some st1 ∧ draftAlt st1 = draftAlt st
         ∧ (apply st = true → apply st1 = true).
Proof.
  revert m st. induction l as [|x l IH]; intros m st Hl; [by eauto|].
  simpl. destruct (select_step_entry m x k st Hl) as (st1 & H1 & Hd1 & Ha1).
  destruct (IH _ _ H1) as (st2 & H2 & Hd2 & Ha2).
  exists st2. split; [done|]. split; [congruence|auto].
Qed.

Lemma select_loop_dom (l : list (Api.PostInfo * Api.ImageInfo))
    (m : gmap jsstring AltState) (k : jsstring) :
  is_Some (foldl selectStep m l !! k) ↔
  is_Some (m !! k) ∨ ∃ x, x ∈ l ∧ imgHasAlt x.2 = false ∧ keyOf x = k.
Proof.
  revert m. induction l as [|x l IH]; intros m.
  - simpl. split; [auto|]. intros [?|(x & []%elem_of_nil & _)]. done.
  - change (foldl selectStep m (x :: l))
      with (foldl selectStep (selectStep m x) l).
    rewrite IH. split.
    + intros [H|(y & Hy & Hm & <-)].
      * destruct (decide (k = keyOf x)) as [->|Hne].
        -- destruct (imgHasAlt x.2) eqn:Hx.
           ++ rewrite select_step_has in H by done. by left.
           ++ right. exists x. split; [apply list_elem_of_here|done].
        -- rewrite select_step_other in H by done. by left.
      * right. exists y. split; [by apply list_elem_of_further|done].
    + intros [[st H]|(y & Hy & Hm & <-)].
      * left. destruct (select_step_entry m x k st H) as (st1 & -> & _).
        by eexists.
      * apply elem_of_cons in Hy as [->|Hy].
        -- left. rewrite select_step_miss by done. by eexists.
        -- right. by exists y.
Qed.

(** X9. [bulkSelectMissingAlt] never unticks an image and never changes a
    stored draft: every entry present before is present after, with the
    same [draftAlt], and ticked if it was ticked (whatever the scan result,
    also one with repeated keys). *)
Theorem X9_bulk_select_keeps_entries (s : AppState) (k : jsstring)
    (st : AltState) :
  altState s !! k = Some st →
  ∃ st1, altState (bulkSelectMissingAlt s) !! k = Some st1
         ∧ draftAlt st1 = draftAlt st
         ∧ (apply st = true → apply st1 = true).
Proof.
  intros Hl. unfold bulkSelectMissingAlt.
  destruct (result s) as [result0|]; [|by eauto].
  simpl. unfold selectMissing. rewrite foldl_posts.
  by apply (select_loop_entry (allImages result0)).
Qed.

(** X10. [bulkSelectMissingAlt] creates entries only for images of the
    current scan result whose alt is absent or blank: a key has an entry
    afterwards exactly when it had one before or is the key of such an
    image. *)
Theorem X10_bulk_select_new_entries (s : AppState) (k : jsstring) :
  is_Some (altState (bulkSelectMissingAlt s) !! k) ↔
  is_Some (altState s !! k)
  ∨ ∃ result0 post img,
      result s = Some result0
      ∧ post ∈ Api.posts result0 ∧ img ∈ Api.images post
      ∧ (Api.alt img = None ∨ ∃ a, Api.alt img = Some a ∧ trim a = [])
      ∧ k = makeKey (Api.uri post) (Api.index img).
Proof.
  unfold bulkSelectMissingAlt. destruct (result s) as [result0|] eqn:Hr.
  - simpl. unfold selectMissing. rewrite foldl_posts.
    change (foldl (λ acc x, selectEntry x.1 acc x.2))
      with (foldl selectStep).
    rewrite select_loop_dom. split.
    + intros [H|([post img] & Hx & Hm & <-)]; [by left|right].
      apply elem_of_allImages in Hx as [Hp Hi].
      exists result0, post, img. repeat split; try done.
      by apply imgHasAlt_false.
    + intros [H|(r & post & img & [= <-] & Hp & Hi & Hm & ->)];
        [by left|right].
      exists (post, img). split; [by apply elem_of_allImages|].
      split; [by apply imgHasAlt_false|done].
  - split; [auto|]. intros [H|(r & post & img & [=] & _)]. done.
Qed.

Lemma buildUpdates_clearAll result0 prev :
  buildUpdates result0 (clearAll prev) = [].
Proof.
  apply buildUpdates_nil. intros x st _ (Hl & Ha & _).
  rewrite clearAll_lookup in Hl.
  destruct (prev !! keyOf x) as [st0|]; [|done].
  injection Hl as <-. done.
Qed.

(** X11. After [bulkClearSelections] nothing is selected: the "selected"
    filter shows no image, every card is rendered unticked, and clicking
    apply issues no request. *)
Theorem X11_bulk_clear_selects_nothing (s : AppState)
    (post : Api.PostInfo) (img : Api.ImageInfo) :
  shouldShowImage (setFilterMode selected (bulkClearSelections s)) post img
  = false
  ∧ apply (displayState (bulkClearSelections s) post img) = false
  ∧ (onApplyChanges_begin (bulkClearSelections s)).2 = None.
Proof.
  unfold shouldShowImage, displayState, onApplyChanges_begin. simpl.
  rewrite clearAll_lookup.
  split; [by destruct (altState s !! _)|].
  split; [by destruct (altState s !! _)|].
  destruct (result s) as [result0|]; [|done].
  by rewrite buildUpdates_clearAll.
Qed.

Lemma clearAll_idem (prev : gmap jsstring AltState) :
  clearAll (clearAll prev) = clearAll prev.
Proof.
  apply map_eq. intros k. rewrite !clearAll_lookup.
  by destruct (prev !! k).
Qed.

(** X12. [bulkClearSelections] is idempotent and keeps the set of keys
    that have an entry. *)
Theorem X12_bulk_clear_idempotent (s : AppState) (k : jsstring) :
  bulkClearSelections (bulkClearSelections s) = bulkClearSelections s
  ∧ (is_Some (altState (bulkClearSelections s) !! k)
     ↔ is_Some (altState s !! k)).
Proof.
  split.
  - unfold bulkClearSelections, setAltState. simpl. by rewrite clearAll_idem.
  - simpl. rewrite clearAll_lookup. by rewrite fmap_is_Some.
Qed.

(** ** Single-key edits *)

(** X13. The two edits of one image commute and the last value written
    wins: whatever the order of a draft edit and a toggle, the entry ends
    up with the new flag and the new draft; a second draft edit (or toggle)
    overrides the first. *)
Theorem X13_edits_same_image (s : AppState) (uri : jsstring) (index : Z)
    (v1 v2 : jsstring) (b1 b2 : bool) :
  handleApplyToggle uri index b1 (handleAltChange uri index v1 s)
  = handleAltChange uri index v1 (handleApplyToggle uri index b1 s)
  ∧ altState (handleApplyToggle uri index b1 (handleAltChange uri index v1 s))
      !! makeKey uri index
    = Some {| apply := b1; draftAlt := v1 |}
  ∧ handleAltChange uri index v2 (handleAltChange uri index v1 s)
    = handleAltChange uri index v2 s
  ∧ handleApplyToggle uri index b2 (handleApplyToggle uri index b1 s)
    = handleApplyToggle uri index b2 s.
Proof.
  unfold handleApplyToggle, handleAltChange, setAltState. simpl.
  rewrite !lookup_insert_eq, !insert_insert_eq. simpl. done.
Qed.


(** X15. Without a scan result the apply handler and the bulk selection
    are no-ops: the state is returned as it is (no message is set or
    cleared) and no request is issued. *)
Theorem X15_no_result_no_op (s : AppState)
    (reply : Api.Reply Api.ApplyResponse) :
  result s = None →
  onApplyChanges s reply = s
  ∧ (onApplyChanges_begin s).2 = None
  ∧ bulkSelectMissingAlt s = s.
Proof.
  intros Hr. unfold onApplyChanges, onApplyChanges_begin,
    bulkSelectMissingAlt. by rewrite Hr.
Qed.

(** ** What the cards show and what is submitted *)

(** X16. What is submitted is what the cards show: the "selected" filter
    shows an image exactly when its card is rendered ticked, and the batch
    holds the update of an image (with the trimmed draft of its card as new
    alt) exactly when its card is ticked and its draft is not blank.  An
    image without a stored entry is rendered unticked and is never
    submitted. *)
Theorem X16_batch_matches_cards (s : AppState) (result0 : Api.ScanResponse)
    (post : Api.PostInfo) (img : Api.ImageInfo) :
  post ∈ Api.posts result0 → img ∈ Api.images post →
  shouldShowImage (setFilterMode selected s) post img
  = apply (displayState s post img)
  ∧ ({| Api.upd_uri := Api.uri post;
        Api.image_index := Api.index img;
        Api.new_alt := trim (draftAlt (displayState s post img)) |}
     ∈ buildUpdates result0 (altState s)
     ↔ apply (displayState s post img) = true
       ∧ trim (draftAlt (displayState s post img)) ≠ []).
Proof.
  intros Hp Hi. unfold shouldShowImage, displayState. simpl.
  split; [by destruct (altState s !! _)|].
  rewrite buildUpdates_elem. split.
  - intros ([post' img'] & st & _ & (Hl & Ha & Ht) & [= Hu Hx _]).
    unfold keyOf in Hl. simpl in *. rewrite <- Hu, <- Hx in Hl.
    by rewrite Hl.
  - intros [Ha Ht].
    destruct (altState s !! makeKey (Api.uri post) (Api.index img))
      as [st|] eqn:Hl; [|done].
    exists (post, img), st. split; [by apply elem_of_allImages|done].
Qed.

(** ** The summary of a resolved apply *)

Lemma success_split (l : list Api.ApplyResultItem) :
  length l - length (filter (λ r, Api.success r = true) l)
  = length (filter (λ r, Api.success r = false) l).
Proof.
  assert (length (filter (λ r, Api.success r = true) l)
          + length (filter (λ r, Api.success r = false) l) = length l);
    [|lia].
  induction l as [|r l IH]; [done|].
  rewrite !filter_cons. destruct (Api.success r) eqn:E.
  - rewrite decide_True, decide_False by done. simpl. lia.
  - rewrite decide_False, decide_True by done. simpl. lia.
Qed.

(** X17. The summary reports the number of items of the response that
    succeeded and, only when some item failed, the number that failed; the
    two numbers count the items of the response, not the submitted
    updates. *)
Theorem X17_summary_counts (resp : Api.ApplyResponse) :
  let succeeded := filter (λ r, Api.success r = true) (Api.updated resp) in
  let failed := filter (λ r, Api.success r = false) (Api.updated resp) in
  length succeeded + length failed = length (Api.updated resp)
  ∧ applySummary resp
    = lit "Applied alt text to " ++ lit (pretty (length succeeded))
      ++ lit " post(s)."
      ++ match failed with
         | [] => []
         | _ :: _ => lit " " ++ lit (pretty (length failed))
                     ++ lit " post(s) failed; check logs/errors."
         end.
Proof.
  intros succeeded failed.
  pose proof (success_split (Api.updated resp)) as E.
  fold succeeded failed in E.
  assert (length succeeded ≤ length (Api.updated resp)) as Hle
    by apply length_filter.
  split; [lia|]. unfold applySummary. fold succeeded. rewrite E.
  by destruct failed.
Qed.

(** ** The filtered list of a post *)

Lemma filter_split {A} (f : A → bool) (l : list A) :
  length (filter (λ x, negb (f x) = true) l)
  + length (filter (λ x, f x = true) l) = length l.
Proof.
  induction l as [|x l IH]; [done|].
  destruct (f x) eqn:E.
  - rewrite filter_cons_False, filter_cons_True by (rewrite E; done).
    simpl. lia.
  - rewrite filter_cons_True, filter_cons_False by (rewrite E; done).
    simpl. lia.
Qed.

(** X18. The list of cards of a post: under "all" it is the list of the
    post's images; under every filter it is a sublist of it, in the same
    order; and the "missingAlt" and the "hasAlt" lists together have as many
    images as the post. *)
Theorem X18_visible_images (s : AppState) (post : Api.PostInfo)
    (mode : FilterMode) :
  visibleImages (setFilterMode all s) post = Api.images post
  ∧ visibleImages (setFilterMode mode s) post `sublist_of` Api.images post
  ∧ length (visibleImages (setFilterMode missingAlt s) post)
    + length (visibleImages (setFilterMode hasAlt s) post)
    = length (Api.images post).
Proof.
  unfold visibleImages. split; [|split].
  - induction (Api.images post) as [|x l IH]; [done|].
    rewrite filter_cons_True by done. by rewrite IH.
  - apply sublist_filter.
  - unfold shouldShowImage. simpl. apply (filter_split imgHasAlt).
Qed.

(** ** Error messages *)

(** X19. A response that is not [ok] and whose error text is not JSON is
    reported by its body, or by "HTTP error <status>" when the body is
    empty: the message of the thrown error is never empty, and both
    handlers put exactly that message in the error banner. *)
Theorem X19_http_error_banner (text : jsstring) (status : Z)
    (s : AppState) :
  httpErrorMessage text status ≠ []
  ∧ httpErrorMessage [] status = lit "HTTP error " ++ lit (pretty status)
  ∧ error (onSubmit_rejected
             (Api.RawText (httpErrorMessage text status)) s)
    = Some (httpErrorMessage text status)
  ∧ error (onApplyChanges_rejected
             (Api.RawText (httpErrorMessage text status)) s)
    = Some (httpErrorMessage text status).
Proof.
  assert (truthy (httpErrorMessage text status) = true) as Ht.
  { unfold httpErrorMessage. destruct (truthy text) eqn:E; done. }
  split; [by apply truthy_true|]. split; [done|].
  simpl. by rewrite Ht.
Qed.

Lemma errorText_nonempty (generic : jsstring) (err : Api.Failure) :
  generic ≠ [] →
  (∀ d, err = Api.JsonText (Api.DetailStructured d) → d ≠ []) →
  errorText generic err ≠ [].
Proof.
  intros Hg Hd. destruct err as [msg|[|d|d]]; simpl.
  - destruct (truthy msg) eqn:E; [by apply truthy_true|done].
  - done.
  - destruct (truthy d) eqn:E; [by apply truthy_true|done].
  - by apply Hd.
Qed.

(** X20. A rejected call always ends with a non-empty error message (so
    the banner is rendered) and with its progress flag reset, given that
    the text of a structured [detail] is not empty, as the text
    [JSON.stringify] gives for a truthy value never is. *)
Theorem X20_rejection_is_reported (err : Api.Failure) (s : AppState) :
  (∀ d, err = Api.JsonText (Api.DetailStructured d) → d ≠ []) →
  (∃ msg, error (onSubmit_rejected err s) = Some msg ∧ msg ≠ [])
  ∧ loading (onSubmit_rejected err s) = false
  ∧ (∃ msg, error (onApplyChanges_rejected err s) = Some msg ∧ msg ≠ [])
  ∧ applying (onApplyChanges_rejected err s) = false.
Proof.
  intros Hd. simpl. repeat split.
  - eexists. split; [reflexivity|]. by apply errorText_nonempty.
  - eexists. split; [reflexivity|]. by apply errorText_nonempty.
Qed.


(** ** Sessions: the component as an event-driven machine *)

Lemma onSubmit_begin_flags (s : AppState) :
  applying (onSubmit_begin s).1 = applying s
  ∧ loading (onSubmit_begin s).1
    = match (onSubmit_begin s).2 with Some _ => true | None => loading s end.
Proof. unfold onSubmit_begin. by destruct (_ || _). Qed.

Lemma onApplyChanges_begin_flags (s : AppState) :
  loading (onApplyChanges_begin s).1 = loading s
  ∧ applying (onApplyChanges_begin s).1
    = match (onApplyChanges_begin s).2 with
      | Some _ => true
      | None => applying s
      end.
Proof.
  unfold onApplyChanges_begin. destruct (result s); [|done].
  by destruct (Nat.eqb _ 0).
Qed.

Lemma fire_flags (e : Event) (m m' : Machine) :
  flagsMatchCalls m → fire e m = Some m' → flagsMatchCalls m'.
Proof.
  unfold flagsMatchCalls. intros [Hl Ha] Hf.
  destruct e; simpl in Hf.
  - by simplify_eq.
  - by simplify_eq.
  - destruct (loading (ui m)) eqn:E; [done|].
    pose proof (onSubmit_begin_flags (ui m)) as [Ha' Hl'].
    destruct (onSubmit_begin (ui m)) as [s' [req|]]; simplify_eq/=;
      split; congruence.
  - destruct (scanPending m); [|done]. simplify_eq/=.
    split; [by destruct reply|]. rewrite <- Ha. by destruct reply.
  - destruct (result (ui m)); [|done].
    destruct (applying (ui m)) eqn:E; [done|].
    pose proof (onApplyChanges_begin_flags (ui m)) as [Hl' Ha'].
    destruct (onApplyChanges_begin (ui m)) as [s' [req|]]; simplify_eq/=;
      split; congruence.
  - destruct (applyPending m) as [[result0 altState0]|]; [|done].
    simplify_eq/=. split; [|by destruct reply].
    rewrite <- Hl. by destruct reply.
  - destruct (shownImage (ui m) i j) as [[post img]|]; by simplify_eq/=.
  - destruct (shownImage (ui m) i j) as [[post img]|]; by simplify_eq/=.
  - destruct (result (ui m)) eqn:E; [|done]. simplify_eq/=.
    unfold bulkSelectMissingAlt. by rewrite E.
  - destruct (result (ui m)); by simplify_eq/=.
  - destruct (result (ui m)); by simplify_eq/=.
Qed.

Lemma run_flags (events : list Event) (m m' : Machine) :
  flagsMatchCalls m → run events m = Some m' → flagsMatchCalls m'.
Proof.
  revert m. induction events as [|e events IH]; intros m Hm Hr; simpl in Hr.
  - by simplify_eq.
  - destruct (fire e m) as [m1|] eqn:Hf; [|done].
    eapply IH; [|done]. by eapply fire_flags.
Qed.

(** X22. In every state a session can reach, [loading] is true exactly
    while a scan call is outstanding and [applying] exactly while an apply
    call is outstanding. *)
Theorem X22_flags_track_calls (events : list Event) :
  match run events initialMachine with
  | Some m =>
      loading (ui m) = scanPending m
      ∧ applying (ui m) = match applyPending m with
                          | Some _ => true
                          | None => false
                          end
  | None => True
  end.
Proof.
  destruct (run events initialMachine) as [m|] eqn:Hr; [|done].
  by apply (run_flags events initialMachine m).
Qed.

Lemma shownImage_elem (s : AppState) (i j : nat) post img :
  shownImage s i j = Some (post, img) →
  ∃ result0, result s = Some result0 ∧ (post, img) ∈ allImages result0.
Proof.
  unfold shownImage. destruct (result s) as [result0|]; [|done].
  destruct (Z.eqb _ 0); [done|].
  destruct (Api.posts result0 !! i) as [p|] eqn:Hp; [|done].
  destruct (Api.images p !! j) as [x|] eqn:Hi; [|done].
  destruct (shouldShowImage s p x); [|done]. intros [= -> ->].
  exists result0. split; [done|]. apply elem_of_allImages.
  split; by eapply list_elem_of_lookup_2.
Qed.

Lemma storesAgree_same (s s' : AppState) :
  result s' = result s → altState s' = altState s →
  storesAgree s → storesAgree s'.
Proof. unfold storesAgree. by intros -> ->. Qed.

Lemma storesAgree_insert (s s' : AppState) result0 x (st : AltState) :
  result s = Some result0 → x ∈ allImages result0 →
  result s' = result s → altState s' = <[keyOf x := st]> (altState s) →
  storesAgree s → storesAgree s'.
Proof.
  unfold storesAgree. intros Hr Hx -> ->. rewrite Hr. intros H k.
  rewrite lookup_insert_is_Some, H. split.
  - intros [<-|[_ Hk]]; [by apply list_elem_of_fmap_2|done].
  - intros Hk. destruct (decide (keyOf x = k)); auto.
Qed.

Lemma storesAgree_select (s : AppState) :
  storesAgree s → storesAgree (bulkSelectMissingAlt s).
Proof.
  unfold storesAgree, bulkSelectMissingAlt.
  destruct (result s) as [result0|] eqn:Hr; [|by rewrite Hr].
  simpl. rewrite Hr. intros H k. unfold selectMissing. rewrite foldl_posts.
  change (foldl (λ acc x, selectEntry x.1 acc x.2)) with (foldl selectStep).
  rewrite select_loop_dom, H. split; [|auto].
  intros [Hk|(x & Hx & _ & <-)]; [done|]. by apply list_elem_of_fmap_2.
Qed.

Lemma storesAgree_clear (s : AppState) :
  storesAgree s → storesAgree (bulkClearSelections s).
Proof.
  unfold storesAgree. simpl. destruct (result s) as [result0|].
  - intros H k. by rewrite clearAll_lookup, fmap_is_Some.
  - intros ->. apply map_eq. intros k.
    by rewrite clearAll_lookup, lookup_empty.
Qed.

Lemma storesAgree_reconciled (s s' : AppState) result0 altState0 :
  result s = Some result0 →
  result s' = Some (nextResult result0 altState0) →
  altState s' = altState s →
  storesAgree s → storesAgree s'.
Proof.
  unfold storesAgree. intros -> -> -> H k.
  by rewrite keyOf_nextResult.
Qed.

Lemma fire_inv (e : Event) (m m' : Machine) :
  sessionInv m →
  match e with Submit => applying (ui m) = false | _ => True end →
  fire e m = Some m' → sessionInv m'.
Proof.
  intros (Hfl & Hst & Hsc & Hap) Hq Hf.
  split; [by eapply fire_flags|].
  destruct e; simpl in Hf.
  - simplify_eq/=. done.
  - simplify_eq/=. done.
  - destruct (loading (ui m)); [done|].
    pose proof (onSubmit_begin_stores (ui m)) as [Hr Ha].
    assert (applyPending m = None) as Hnone.
    { destruct Hfl as [_ Hfa]. rewrite Hq in Hfa.
      by destruct (applyPending m). }
    destruct (onSubmit_begin (ui m)) as [s' [req|]]; simplify_eq/=.
    + split; [unfold storesAgree; by rewrite Hr|].
      split; [done|]. intros ??. by rewrite Hnone.
    + split; [unfold storesAgree; by rewrite Hr|].
      split; [done|]. intros ??. by rewrite Hnone.
  - destruct (scanPending m) eqn:Hp; [|done].
    destruct (Hsc eq_refl) as [Hr Hnone]. simplify_eq/=.
    split; [|split; [done|intros ??; by rewrite Hnone]].
    destruct reply as [data|err].
    + unfold storesAgree. simpl. apply initAltState_dom.
    + exact Hst.
  - destruct (result (ui m)) as [result0|] eqn:Hr; [|done].
    destruct (applying (ui m)); [done|].
    pose proof (onApplyChanges_begin_stores (ui m)) as [Hr' Ha'].
    assert (scanPending m = false) as Hp.
    { destruct (scanPending m); [|done]. destruct (Hsc eq_refl). congruence. }
    destruct (onApplyChanges_begin (ui m)) as [s' [req|]]; simplify_eq/=.
    + split; [by apply (storesAgree_same (ui m))|].
      split; [by rewrite Hp|]. intros ?? [= <- <-]. congruence.
    + split; [by apply (storesAgree_same (ui m))|].
      split; [by rewrite Hp|]. intros ?? H. rewrite Hr', Hr. by eapply Hap.
  - destruct (applyPending m) as [[result0 altState0]|] eqn:Hpa; [|done].
    pose proof (Hap _ _ eq_refl) as Hr.
    assert (scanPending m = false) as Hp.
    { destruct (scanPending m); [|done]. destruct (Hsc eq_refl). congruence. }
    simplify_eq/=. split; [|split; [by rewrite Hp|done]].
    destruct reply as [resp|err].
    + by apply (storesAgree_reconciled (ui m) _ result0 altState0).
    + exact Hst.
  - destruct (shownImage (ui m) i j) as [[post img]|] eqn:Hs; [|done].
    apply shownImage_elem in Hs as (result0 & Hr & Hx). simplify_eq/=.
    split; [|done].
    by eapply (storesAgree_insert (ui m) _ result0 (post, img)).
  - destruct (shownImage (ui m) i j) as [[post img]|] eqn:Hs; [|done].
    apply shownImage_elem in Hs as (result0 & Hr & Hx). simplify_eq/=.
    split; [|done].
    by eapply (storesAgree_insert (ui m) _ result0 (post, img)).
  - destruct (result (ui m)) as [result0|] eqn:Hr; [|done]. simplify_eq/=.
    split; [by apply storesAgree_select|].
    unfold bulkSelectMissingAlt. rewrite Hr. simpl. rewrite Hr. done.
  - destruct (result (ui m)) as [result0|] eqn:Hr; [|done]. simplify_eq/=.
    split; [by apply storesAgree_clear|]. by rewrite Hr.
  - destruct (result (ui m)) as [result0|] eqn:Hr; [|done]. simplify_eq/=.
    split; [exact Hst|]. by rewrite Hr.
Qed.

Lemma run_inv (events : list Event) (m m' : Machine) :
  sessionInv m → noScanDuringApply events m = true →
  run events m = Some m' → sessionInv m'.
Proof.
  revert m. induction events as [|e events IH]; intros m Hm Hq Hr;
    simpl in Hq, Hr.
  - by simplify_eq.
  - destruct (fire e m) as [m1|] eqn:Hf; [|done].
    apply andb_true_iff in Hq as [Hq1 Hq2].
    eapply IH; [|done..]. eapply fire_inv; [done| |done].
    destruct e; try done. by apply negb_true_iff.
Qed.

Lemma initialMachine_inv : sessionInv initialMachine.
Proof. by repeat split. Qed.

(** X23. Along every session in which no scan is submitted while an apply
    call is outstanding, the selection state has an entry for exactly the
    images of the current scan result (every card is rendered from a stored
    entry, never from the fallback), it is empty when there is no scan
    result, and there is no scan result while a scan is outstanding. *)
Theorem X23_stores_agree (events : list Event) :
  noScanDuringApply events initialMachine = true →
  match run events initialMachine with
  | Some m =>
      match result (ui m) with
      | Some result0 =>
          ∀ k, is_Some (altState (ui m) !! k) ↔
               ∃ post img, post ∈ Api.posts result0 ∧ img ∈ Api.images post
                           ∧ k = makeKey (Api.uri post) (Api.index img)
      | None => altState (ui m) = ∅
      end
      ∧ (scanPending m = true → result (ui m) = None)
  | None => True
  end.
Proof.
  intros Hq. destruct (run events initialMachine) as [m|] eqn:Hr; [|done].
  destruct (run_inv events initialMachine m initialMachine_inv Hq Hr)
    as (_ & Hst & Hsc & _).
  split; [|by intros []%Hsc].
  unfold storesAgree in Hst. destruct (result (ui m)) as [result0|]; [|done].
  intros k. by rewrite Hst, elem_of_keys.
Qed.

(** The condition of X23 is needed: in [demoRace] the apply call resolves
    after a second scan was submitted, and the old scan result comes back
    while that scan is outstanding and the selection state is empty. *)
Example demo_race :
  noScanDuringApply demoRace initialMachine = false
  ∧ match run demoRace initialMachine with
    | Some m =>
        scanPending m = true
        ∧ result (ui m) = Some (nextResult demoScan (initAltState demoScan))
        ∧ altState (ui m) !! makeKey (Api.uri demoPost) 0 = None
    | None => False
    end.
Proof. split; [reflexivity|]. vm_compute. done. Qed.

Example demo_session_runs : is_Some (run demoSession initialMachine).
Proof. vm_compute. by eexists. Qed.

Lemma X3_fresh_selected_is_missing_witness :
  shouldShowImage (setFilterMode selected (onSubmit_resolved demoScan demoLogin))
    demoPost demoImage0
  = shouldShowImage
      (setFilterMode missingAlt (onSubmit_resolved demoScan demoLogin))
      demoPost demoImage0.
Proof.
  apply (X3_fresh_selected_is_missing demoScan demoLogin demoPost demoImage0).
  - exact demoScan_unique.
  - apply list_elem_of_here.
  - apply list_elem_of_here.
Defined.

Lemma X4_fresh_batch_witness :
  {| Api.upd_uri := Api.uri demoPost; Api.image_index := 0;
     Api.new_alt := lit "A dog on a beach" |}
  ∈ buildUpdates demoScan (altState (onSubmit_resolved demoScan demoLogin))
  ↔ ∃ post img,
      post ∈ Api.posts demoScan ∧ img ∈ Api.images post
      ∧ (Api.alt img = None ∨ ∃ a, Api.alt img = Some a ∧ trim a = [])
      ∧ trim (default [] (Api.generated_alt img)) ≠ []
      ∧ {| Api.upd_uri := Api.uri demoPost; Api.image_index := 0;
           Api.new_alt := lit "A dog on a beach" |}
        = {| Api.upd_uri := Api.uri post;
             Api.image_index := Api.index img;
             Api.new_alt := trim (default [] (Api.generated_alt img)) |}.
Proof.
  apply (X4_fresh_batch demoScan demoLogin). exact demoScan_unique.
Defined.

Lemma X6_reconciliation_frame_witness :
  ∃ post1,
    Api.posts (nextResult demoScan (altState demoScanned)) !! 0 = Some post1
    ∧ Api.uri post1 = Api.uri demoPost ∧ Api.cid post1 = Api.cid demoPost
    ∧ Api.text post1 = Api.text demoPost
    ∧ Api.created_at post1 = Api.created_at demoPost
    ∧ length (Api.images post1) = length (Api.images demoPost)
    ∧ Api.images post1 !! 1 = Some demoImage1.
Proof.
  apply (X6_reconciliation_frame demoScan (altState demoScanned) 0 1
           demoPost demoImage1).
  - reflexivity.
  - reflexivity.
  - intros st H Ha. vm_compute in H. injection H as <-. discriminate Ha.
Defined.

Lemma X9_bulk_select_keeps_entries_witness :
  ∃ st1,
    altState (bulkSelectMissingAlt demoScanned)
      !! makeKey (Api.uri demoPost) 1 = Some st1
    ∧ draftAlt st1 = draftAlt {| apply := false; draftAlt := lit "cat" |}
    ∧ (apply {| apply := false; draftAlt := lit "cat" |} = true →
       apply st1 = true).
Proof.
  apply (X9_bulk_select_keeps_entries demoScanned).
  vm_compute. reflexivity.
Defined.


Lemma X15_no_result_no_op_witness :
  onApplyChanges demoLogin (Api.Resolved demoAllFailed) = demoLogin
  ∧ (onApplyChanges_begin demoLogin).2 = None
  ∧ bulkSelectMissingAlt demoLogin = demoLogin.
Proof.
  apply (X15_no_result_no_op demoLogin (Api.Resolved demoAllFailed)).
  reflexivity.
Defined.

Lemma X16_batch_matches_cards_witness :
  shouldShowImage (setFilterMode selected demoEdited) demoPost demoImage1
  = apply (displayState demoEdited demoPost demoImage1)
  ∧ ({| Api.upd_uri := Api.uri demoPost;
        Api.image_index := Api.index demoImage1;
        Api.new_alt :=
          trim (draftAlt (displayState demoEdited demoPost demoImage1)) |}
     ∈ buildUpdates demoScan (altState demoEdited)
     ↔ apply (displayState demoEdited demoPost demoImage1) = true
       ∧ trim (draftAlt (displayState demoEdited demoPost demoImage1)) ≠ []).
Proof.
  apply (X16_batch_matches_cards demoEdited demoScan demoPost demoImage1).
  - apply list_elem_of_here.
  - apply list_elem_of_further, list_elem_of_here.
Defined.

Lemma X20_rejection_is_reported_witness :
  (∃ msg,
     error (onSubmit_rejected
              (Api.JsonText (Api.DetailStructured (lit "[1]"))) demoScanned)
     = Some msg ∧ msg ≠ [])
  ∧ loading (onSubmit_rejected
               (Api.JsonText (Api.DetailStructured (lit "[1]"))) demoScanned)
    = false
  ∧ (∃ msg,
       error (onApplyChanges_rejected
                (Api.JsonText (Api.DetailStructured (lit "[1]"))) demoScanned)
       = Some msg ∧ msg ≠ [])
  ∧ applying (onApplyChanges_rejected
                (Api.JsonText (Api.DetailStructured (lit "[1]"))) demoScanned)
    = false.
Proof.
  apply (X20_rejection_is_reported
           (Api.JsonText (Api.DetailStructured (lit "[1]"))) demoScanned).
  intros d [= <-]. discriminate.
Defined.

Lemma X23_stores_agree_witness :
  noScanDuringApply demoSession initialMachine = true
  ∧ match run demoSession initialMachine with
    | Some m =>
        match result (ui m) with
        | Some result0 =>
            ∀ k, is_Some (altState (ui m) !! k) ↔
                 ∃ post img,
                   post ∈ Api.posts result0 ∧ img ∈ Api.images post
                   ∧ k = makeKey (Api.uri post) (Api.index img)
        | None => altState (ui m) = ∅
        end
        ∧ (scanPending m = true → result (ui m) = None)
    | None => True
    end.
Proof.
  assert (noScanDuringApply demoSession initialMachine = true) as Hq
    by (vm_compute; reflexivity).
  split; [exact Hq|]. exact (X23_stores_agree demoSession Hq).
Defined.
